(** * Leaf-key derivation of the sparse Merkle tree (package [merkletree])

    Shallow embedding of [keyEthAddr], [defaultCapIn], [KeyEthAddrBalance],
    [KeyEthAddrNonce], [KeyContractCode] and [KeyContractStorage], together
    with the helpers they call, and the properties of the key-derivation
    protocol. *)

From Stdlib Require Import ZArith List String Ascii Bool Lia.
From Stdlib.Strings Require Import Byte.
From Stdlib Require Decimal DecimalFacts DecimalString DecimalZ.
Import ListNotations.
Open Scope Z_scope.

(** ** math/big: the two conversions the derivation relies on *)

Module BigInt.

Definition byte_val (b : byte) : Z := Z.of_N (Byte.to_N b).

(** [new(big.Int).SetBytes(buf)]: [buf] read as a big-endian unsigned
    integer. *)
Definition SetBytes (buf : list byte) : Z :=
  fold_left (fun acc b => acc * 256 + byte_val b) buf 0.

(** The byte of weight [256^i] of [n]. *)
Definition byte_at (n : Z) (i : nat) : byte :=
  match Byte.of_N (Z.to_N ((n / 256 ^ Z.of_nat i) mod 256)) with
  | Some b => b
  | None => x00
  end.

(** [n.FillBytes(make([]byte, len))]: the big-endian representation of
    [n], zero-extended on the left to [len] bytes. *)
Definition FillBytes (len : nat) (n : Z) : list byte :=
  map (byte_at n) (rev (seq 0 len)).

End BigInt.
Import BigInt.

(** ** Errors, fixed-size arrays, leaf types *)

(** The two error kinds of the derivation, and the parsing error of the
    build-time constant. The hash primitive may return any [error]. *)
Inductive error : Type :=
| EncodingError
| FormatError
| HashError (msg : string).

(** [[8]uint64]: the message input of the hash. *)
Record arr8 : Type := A8 { e0 : Z; e1 : Z; e2 : Z; e3 : Z; e4 : Z; e5 : Z; e6 : Z; e7 : Z }.

(** [[4]uint64]: capacity vectors and digests. *)
Record arr4 : Type := A4 { h0 : Z; h1 : Z; h2 : Z; h3 : Z }.

(** [result[:]]: the slice over a 4-element array. *)
Definition arr4_slice (h : arr4) : list Z := [h0 h; h1 h; h2 h; h3 h].

Definition uint64_ok (z : Z) : Prop := 0 <= z < 2 ^ 64.

Definition arr4_ok (h : arr4) : Prop :=
  uint64_ok (h0 h) /\ uint64_ok (h1 h) /\ uint64_ok (h2 h) /\ uint64_ok (h3 h).

Definition AddressLength : nat := 20.

(** [common.Address], a [[20]byte]. *)
Record Address : Type := mkAddress {
  Bytes : list byte;
  Bytes_length : List.length Bytes = AddressLength
}.

(** Modelled from the spec: the [leafType] declaration and its constants
    live in another file of the package; the leaf-type integer tags are 0
    for balance, 1 for nonce, 2 for code and 3 for storage. *)
Inductive leafType : Type :=
| leafTypeBalance
| leafTypeNonce
| leafTypeCode
| leafTypeStorage.

(** [uint64(leafType)]. *)
Definition uint64_of_leafType (t : leafType) : Z :=
  match t with
  | leafTypeBalance => 0
  | leafTypeNonce => 1
  | leafTypeCode => 2
  | leafTypeStorage => 3
  end.

Definition HashPoseidonAllZeroes : string :=
  "0xc71603f33a1144ca7953db0ab48808f4c4055e3364a246c33c18a9786cb0b359".

(** Indexing a slice, [s[i]]. *)
Definition idx (s : list Z) (i : nat) : Z := nth i s 0.

(** ** Outcomes of a call and the instrumented call monad *)

(** A Go call either returns its results or panics. *)
Inductive outcome (A : Type) : Type :=
| Returned (a : A)
| Panicked (e : error).
Arguments Returned {A} a.
Arguments Panicked {A} e.

(** What a derivation does that an observer can count: parsing a hex
    constant and invoking the hash primitive. *)
Inductive event : Type :=
| EvStringToh4 (s : string)
| EvHash (input : arr8) (capacity : arr4).

Definition M (A : Type) : Type := list event -> outcome A * list event.

Definition ret {A : Type} (a : A) : M A := fun tr => (Returned a, tr).

Definition bind {A B : Type} (m : M A) (k : A -> M B) : M B :=
  fun tr =>
    match m tr with
    | (Returned a, tr') => k a tr'
    | (Panicked e, tr') => (Panicked e, tr')
    end.

Definition emit (ev : event) : M unit := fun tr => (Returned tt, tr ++ [ev]).

Definition call {A : Type} (o : outcome A) : M A := fun tr => (o, tr).

Declare Scope go_scope.
Delimit Scope go_scope with go.
Notation "x <- m ;; k" := (bind m (fun x => k))
  (at level 61, m at next level, right associativity) : go_scope.
Notation "' pat <- m ;; k" := (bind m (fun x => match x with pat => k end))
  (at level 61, pat pattern, m at next level, right associativity) : go_scope.
Open Scope go_scope.

(** ** Helpers of the package that the derivation calls *)

Fixpoint groups4 (k : nat) (l : list byte) : list (list byte) :=
  match k with
  | O => []
  | S k' => firstn 4 l :: groups4 k' (skipn 4 l)
  end.

(** Modelled from the spec: the body of [scalar2fea], which lives in
    another file of the package. It splits the big-endian byte
    representation of [value] into 4-byte groups, each interpreted as a big-endian unsigned 32-bit value,
    placed least-significant group first into the 8 slots, unused high slots
    zero; it fails with [EncodingError] if [value] requires more bits than
    [widthBits] or is negative. The source calls [scalar2fea] with the
    integer alone and takes a single result, so the failure is a panic and
    [widthBits] is the declared width of the call site (160 for an address,
    256 for a storage position). *)
Definition scalar2fea (widthBits : Z) (value : Z) : outcome (list Z) :=
  if (value <? 0) || (2 ^ widthBits <=? value)
  then Panicked EncodingError
  else Returned (rev (map SetBytes (groups4 8 (FillBytes 32 value)))).

(** Modelled from the spec: the body of [h4ToFilledByteSlice], which lives
    in another file of the package. It concatenates the digest words, in
    the order of the slice, each written as 8 big-endian bytes. *)
Definition h4ToFilledByteSlice (h4 : list Z) : list byte :=
  flat_map (FillBytes 8) h4.

Definition hexDigit (c : ascii) : option Z :=
  let n := Z.of_nat (nat_of_ascii c) in
  if (48 <=? n) && (n <=? 57) then Some (n - 48)
  else if (97 <=? n) && (n <=? 102) then Some (n - 87)
  else if (65 <=? n) && (n <=? 70) then Some (n - 55)
  else None.

Fixpoint hexValue (acc : Z) (s : list ascii) : option Z :=
  match s with
  | [] => Some acc
  | c :: s' =>
      match hexDigit c with
      | Some d => hexValue (acc * 16 + d) s'
      | None => None
      end
  end.

Fixpoint hexWords (k : nat) (s : list ascii) : option (list Z) :=
  match k with
  | O => Some []
  | S k' =>
      match hexValue 0 (firstn 16 s), hexWords k' (skipn 16 s) with
      | Some w, Some ws => Some (w :: ws)
      | _, _ => None
      end
  end.

Definition trimPrefix0x (s : list ascii) : list ascii :=
  match s with
  | "0"%char :: "x"%char :: s' => s'
  | _ => s
  end.

(** Modelled from the spec: the body of [stringToh4], which lives in
    another file of the package. It parses a fixed-length hex literal (64
    digits, here after the [0x] prefix the constant of the package carries)
    into 4 big-endian 64-bit words, in the order they are written, and fails
    with [FormatError] on wrong length or non-hex characters. *)
Definition stringToh4 (str : string) : list Z * option error :=
  let digits := trimPrefix0x (list_ascii_of_string str) in
  if negb (Nat.eqb (List.length digits) 64) then ([], Some FormatError)
  else match hexWords 4 digits with
       | Some ws => (ws, None)
       | None => ([], Some FormatError)
       end.

(** ** The derivation, over the hash primitive *)

Section KeyDeriver.

(** [poseidon.Hash] of the goldenposeidon package: an external pure
    function returning a digest and an error. *)
Variable Hash : arr8 -> arr4 -> arr4 * option error.

Definition poseidon_Hash (input : arr8) (capacity : arr4) : M (arr4 * option error) :=
  _ <- emit (EvHash input capacity) ;;
  ret (Hash input capacity).

Definition call_stringToh4 (str : string) : M (list Z * option error) :=
  _ <- emit (EvStringToh4 str) ;;
  ret (stringToh4 str).

Definition keyEthAddr (ethAddr : Address) (lt : leafType) (key1Capacity : arr4)
  : M (list byte * option error) :=
  let ethAddrBI := SetBytes (Bytes ethAddr) in
  ethAddrArr <- call (scalar2fea 160 ethAddrBI) ;;
  let key1 := A8 (idx ethAddrArr 0) (idx ethAddrArr 1) (idx ethAddrArr 2)
                 (idx ethAddrArr 3) (idx ethAddrArr 4)
                 0 (uint64_of_leafType lt) 0 in
  '(result, err) <- poseidon_Hash key1 key1Capacity ;;
  match err with
  | Some e => ret ([], Some e)
  | None => ret (h4ToFilledByteSlice (arr4_slice result), None)
  end.

Definition defaultCapIn : M (arr4 * option error) :=
  '(capIn, err) <- call_stringToh4 HashPoseidonAllZeroes ;;
  match err with
  | Some e => ret (A4 0 0 0 0, Some e)
  | None => ret (A4 (idx capIn 0) (idx capIn 1) (idx capIn 2) (idx capIn 3), None)
  end.

Definition KeyEthAddrBalance (ethAddr : Address) : M (list byte * option error) :=
  '(capIn, err) <- defaultCapIn ;;
  match err with
  | Some e => ret ([], Some e)
  | None => keyEthAddr ethAddr leafTypeBalance capIn
  end.

Definition KeyEthAddrNonce (ethAddr : Address) : M (list byte * option error) :=
  '(capIn, err) <- defaultCapIn ;;
  match err with
  | Some e => ret ([], Some e)
  | None => keyEthAddr ethAddr leafTypeNonce capIn
  end.

Definition KeyContractCode (ethAddr : Address) : M (list byte * option error) :=
  '(capIn, err) <- defaultCapIn ;;
  match err with
  | Some e => ret ([], Some e)
  | None => keyEthAddr ethAddr leafTypeCode capIn
  end.

Definition KeyContractStorage (ethAddr : Address) (storagePos : list byte)
  : M (list byte * option error) :=
  let storageBI := SetBytes storagePos in
  storageArr <- call (scalar2fea 256 storageBI) ;;
  '(hk0, err) <- poseidon_Hash
                   (A8 (idx storageArr 0) (idx storageArr 1) (idx storageArr 2)
                       (idx storageArr 3) (idx storageArr 4) (idx storageArr 5)
                       (idx storageArr 6) (idx storageArr 7))
                   (A4 0 0 0 0) ;;
  match err with
  | Some e => ret ([], Some e)
  | None => keyEthAddr ethAddr leafTypeStorage hk0
  end.

End KeyDeriver.

(** ** Limbs: the arithmetic reading of the encoding *)

(** The [i]-th 32-bit limb of [n], least significant first. *)
Definition limb (n : Z) (i : Z) : Z := (n / 2 ^ (32 * i)) mod 2 ^ 32.

Definition fea (n : Z) : list Z :=
  [limb n 0; limb n 1; limb n 2; limb n 3; limb n 4; limb n 5; limb n 6; limb n 7].

(** ** Vocabulary for the statements *)

(** The value of the default capacity. *)
Definition defaultCap : arr4 :=
  let capIn := fst (stringToh4 HashPoseidonAllZeroes) in
  A4 (idx capIn 0) (idx capIn 1) (idx capIn 2) (idx capIn 3).

(** The message of the address hash. *)
Definition key1_of (a : Address) (lt : leafType) : arr8 :=
  let n := SetBytes (Bytes a) in
  A8 (limb n 0) (limb n 1) (limb n 2) (limb n 3) (limb n 4) 0 (uint64_of_leafType lt) 0.

(** The message of the position hash. *)
Definition posFE_of (storagePos : list byte) : arr8 :=
  let n := SetBytes storagePos in
  A8 (limb n 0) (limb n 1) (limb n 2) (limb n 3) (limb n 4) (limb n 5) (limb n 6) (limb n 7).

(** The pair a derivation returns for the pair the last hash call returned. *)
Definition finish (r : arr4 * option error) : list byte * option error :=
  match snd r with
  | Some e => ([], Some e)
  | None => (h4ToFilledByteSlice (arr4_slice (fst r)), None)
  end.

Definition hash_calls (tr : list event) : list (arr8 * arr4) :=
  flat_map (fun ev => match ev with EvHash x c => [(x, c)] | EvStringToh4 _ => [] end) tr.

Definition parse_calls (tr : list event) : list string :=
  flat_map (fun ev => match ev with EvStringToh4 s => [s] | EvHash _ _ => [] end) tr.

(** ** The four derivations as one family, and sequences of them *)

Inductive derivation : Type :=
| DBalance (a : Address)
| DNonce (a : Address)
| DCode (a : Address)
| DStorage (a : Address) (storagePos : list byte).

Definition derive (Hash : arr8 -> arr4 -> arr4 * option error) (d : derivation)
  : M (list byte * option error) :=
  match d with
  | DBalance a => KeyEthAddrBalance Hash a
  | DNonce a => KeyEthAddrNonce Hash a
  | DCode a => KeyContractCode Hash a
  | DStorage a p => KeyContractStorage Hash a p
  end.

(** The derivations that use the default capacity. *)
Inductive request : Type :=
| ReqBalance (a : Address)
| ReqNonce (a : Address)
| ReqCode (a : Address).

Definition request_derivation (r : request) : derivation :=
  match r with
  | ReqBalance a => DBalance a
  | ReqNonce a => DNonce a
  | ReqCode a => DCode a
  end.

Definition request_key1 (r : request) : arr8 :=
  match r with
  | ReqBalance a => key1_of a leafTypeBalance
  | ReqNonce a => key1_of a leafTypeNonce
  | ReqCode a => key1_of a leafTypeCode
  end.

(** A process serving the requests one after the other. *)
Fixpoint derive_all (Hash : arr8 -> arr4 -> arr4 * option error) (rs : list request)
  : M (list (list byte * option error)) :=
  match rs with
  | [] => ret []
  | r :: rs' =>
      k <- derive Hash (request_derivation r) ;;
      ks <- derive_all Hash rs' ;;
      ret (k :: ks)
  end.

(** ** Assumptions on the hash primitive, and a table-driven test double *)

(** No two different (message, capacity) pairs have the same digest. *)
Definition collision_free (Hash : arr8 -> arr4 -> arr4 * option error) : Prop :=
  forall x c x' c' d,
    Hash x c = (d, None) -> Hash x' c' = (d, None) -> x = x' /\ c = c'.

(** No two different (message, capacity) pairs among [calls] have the same
    digest. *)
Definition collision_free_on (calls : list (arr8 * arr4))
  (Hash : arr8 -> arr4 -> arr4 * option error) : Prop :=
  forall x c x' c' d,
    In (x, c) calls -> In (x', c') calls ->
    Hash x c = (d, None) -> Hash x' c' = (d, None) -> x = x' /\ c = c'.

(** Digests are [[4]uint64]. *)
Definition uint64_digests (Hash : arr8 -> arr4 -> arr4 * option error) : Prop :=
  forall x c d, Hash x c = (d, None) -> arr4_ok d.

Definition arr4_eqb (x y : arr4) : bool :=
  (h0 x =? h0 y) && (h1 x =? h1 y) && (h2 x =? h2 y) && (h3 x =? h3 y).

Definition arr8_eqb (x y : arr8) : bool :=
  (e0 x =? e0 y) && (e1 x =? e1 y) && (e2 x =? e2 y) && (e3 x =? e3 y)
  && (e4 x =? e4 y) && (e5 x =? e5 y) && (e6 x =? e6 y) && (e7 x =? e7 y).

Fixpoint lookup (tbl : list ((arr8 * arr4) * arr4)) (x : arr8) (c : arr4) : option arr4 :=
  match tbl with
  | [] => None
  | ((x', c'), d) :: tbl' =>
      if arr8_eqb x x' && arr4_eqb c c' then Some d else lookup tbl' x c
  end.

(** A hash that answers from a table and rejects every other input. *)
Definition tableHash (tbl : list ((arr8 * arr4) * arr4)) (x : arr8) (c : arr4)
  : arr4 * option error :=
  match lookup tbl x c with
  | Some d => (d, None)
  | None => (A4 0 0 0 0, Some (HashError "input not in table"))
  end.

Definition zeroAddr : Address := mkAddress (repeat x00 20) eq_refl.

(** A table for the four derivations of [zeroAddr] and the storage
    positions 1 and 2. *)
Definition demoTable : list ((arr8 * arr4) * arr4) :=
  [ ((A8 0 0 0 0 0 0 0 0, defaultCap), A4 10 0 0 0);
    ((A8 0 0 0 0 0 0 1 0, defaultCap), A4 11 0 0 0);
    ((A8 0 0 0 0 0 0 2 0, defaultCap), A4 12 0 0 0);
    ((A8 1 0 0 0 0 0 0 0, A4 0 0 0 0), A4 21 0 0 0);
    ((A8 2 0 0 0 0 0 0 0, A4 0 0 0 0), A4 22 0 0 0);
    ((A8 0 0 0 0 0 0 3 0, A4 21 0 0 0), A4 31 0 0 0);
    ((A8 0 0 0 0 0 0 3 0, A4 22 0 0 0), A4 32 0 0 0) ].

Definition demoHash : arr8 -> arr4 -> arr4 * option error := tableHash demoTable.

(** A hash that maps everything to one digest, and one that always fails. *)
Definition constHash (x : arr8) (c : arr4) : arr4 * option error := (A4 7 7 7 7, None).

Definition failHash (x : arr8) (c : arr4) : arr4 * option error :=
  (A4 0 0 0 0, Some (HashError "fault")).

(** ** What a derivation is about *)

Definition derivation_leafType (d : derivation) : leafType :=
  match d with
  | DBalance _ => leafTypeBalance
  | DNonce _ => leafTypeNonce
  | DCode _ => leafTypeCode
  | DStorage _ _ => leafTypeStorage
  end.

Definition derivation_address (d : derivation) : Address :=
  match d with
  | DBalance a | DNonce a | DCode a | DStorage a _ => a
  end.

(** The integer of the storage position, for a storage derivation. *)
Definition derivation_position (d : derivation) : option Z :=
  match d with
  | DStorage _ p => Some (SetBytes p)
  | _ => None
  end.

(** All 8 words of a hash message are below [2^32]. *)
Definition field_safe (x : arr8) : Prop :=
  Forall (fun w => 0 <= w < 2 ^ 32) [e0 x; e1 x; e2 x; e3 x; e4 x; e5 x; e6 x; e7 x].

(** * The operations manager (package [operations]) *)

Module Operations.

(** Errors: those the external world returns, and the one [checkRoot]
    builds with [fmt.Errorf("Invalid root, want %q, got %q", ...)]. *)
Inductive error : Type :=
| ExternalError (msg : string)
| InvalidRoot (want got : string).

Definition l2NetworkURL : string := "http://localhost:8123".

Inductive stream : Type := Unset | OsStdout | OsStderr.

(** The fields of [exec.Cmd] the package sets. *)
Record Cmd : Type := mkCmd {
  Path : string;
  Args : list string;
  Dir : string;
  Stdout : stream;
  Stderr : stream
}.


(** The fields of [vectors.Tx] that [ApplyTxs] reads. *)
Record Tx : Type := mkTx {
  ID : Z;
  RawTx : string;
  From : string;
  Overwrite_S : string
}.

(** The calls that leave the process. A transaction is identified with the
    bytes it is unmarshalled from. *)
Inductive event : Type :=
| EvRun (c : Cmd)
| EvDial (rawurl : string)
| EvGetLastBatchNumberSeenOnEthereum
| EvGetLastBatchNumberConsolidatedOnEthereum
| EvInfof (id : Z) (txHash : list byte) (from : string)
| EvSendTransaction (tx : list byte)
| EvGetStateRoot (virtual : bool).

Definition M (A : Type) : Type := list event -> A * list event.

Definition ret {A : Type} (a : A) : M A := fun tr => (a, tr).

Definition bind {A B : Type} (m : M A) (k : A -> M B) : M B :=
  fun tr => let (a, tr') := m tr in k a tr'.

Declare Scope ops_scope.
Notation "x <- m ;; k" := (bind m (fun x => k))
  (at level 61, m at next level, right associativity) : ops_scope.
Notation "' pat <- m ;; k" := (bind m (fun x => match x with pat => k end))
  (at level 61, pat pattern, m at next level, right associativity) : ops_scope.
Local Open Scope ops_scope.

(** What lies outside the package: the answer of each external call may
    depend on everything that happened before it. [Poll] and the three
    readiness conditions belong to another file of the package and are left
    arbitrary. *)
Record World : Type := mkWorld {
  Run : list event -> Cmd -> option error;
  Dial : list event -> string -> option error;
  GetLastBatchNumberSeenOnEthereum : list event -> Z * option error;
  GetLastBatchNumberConsolidatedOnEthereum : list event -> Z * option error;
  GetStateRoot : list event -> bool -> list byte * option error;
  DecodeHex : string -> list byte * option error;
  UnmarshalBinary : list byte -> option error;
  TxHash : list byte -> list byte;
  SendTransaction : list event -> list byte -> option error;
  Poll : Z -> Z -> M (bool * option error) -> M (option error);
  defaultInterval : Z;
  defaultDeadline : Z;
  networkUpCondition : M (bool * option error);
  coreUpCondition : M (bool * option error);
  proverUpCondition : M (bool * option error)
}.

(** [new(big.Int).SetBytes(root).String()]: the decimal text of an
    integer. *)
Definition Int_String (n : Z) : string :=
  DecimalString.NilZero.string_of_int (Z.to_int n).

Section Manager.

Variable w : World.


Definition ethclient_Dial (rawurl : string) : M (option error) :=
  fun tr => (Dial w tr rawurl, tr ++ [EvDial rawurl]).

Definition st_GetLastBatchNumberSeenOnEthereum : M (Z * option error) :=
  fun tr => (GetLastBatchNumberSeenOnEthereum w tr,
             tr ++ [EvGetLastBatchNumberSeenOnEthereum]).

Definition st_GetLastBatchNumberConsolidatedOnEthereum : M (Z * option error) :=
  fun tr => (GetLastBatchNumberConsolidatedOnEthereum w tr,
             tr ++ [EvGetLastBatchNumberConsolidatedOnEthereum]).

Definition st_GetStateRoot (virtual : bool) : M (list byte * option error) :=
  fun tr => (GetStateRoot w tr virtual, tr ++ [EvGetStateRoot virtual]).

Definition log_Infof (id : Z) (txHash : list byte) (from : string) : M unit :=
  fun tr => (tt, tr ++ [EvInfof id txHash from]).

Definition l2Client_SendTransaction (tx : list byte) : M (option error) :=
  fun tr => (SendTransaction w tr tx, tr ++ [EvSendTransaction tx]).

Definition checkRoot (root : list byte) (expectedRoot : string) : option error :=
  let actualRoot := Int_String (SetBytes root) in
  if negb (String.eqb expectedRoot actualRoot)
  then Some (InvalidRoot expectedRoot actualRoot)
  else None.

Definition CheckVirtualRoot (expectedRoot : string) : M (option error) :=
  '(root, err) <- st_GetStateRoot true ;;
  match err with
  | Some e => ret (Some e)
  | None => ret (checkRoot root expectedRoot)
  end.

Definition CheckConsolidatedRoot (expectedRoot : string) : M (option error) :=
  '(root, err) <- st_GetStateRoot false ;;
  match err with
  | Some e => ret (Some e)
  | None => ret (checkRoot root expectedRoot)
  end.

(** The body of the loop over [txs], with its [return err] exits. *)
Fixpoint sendTxs (txs : list Tx) : M (option error) :=
  match txs with
  | [] => ret None
  | tx :: txs' =>
      if negb (String.eqb (RawTx tx) "") && String.eqb (Overwrite_S tx) ""
      then
        let '(b, err) := DecodeHex w (RawTx tx) in
        match err with
        | Some e => ret (Some e)
        | None =>
            match UnmarshalBinary w b with
            | Some e => ret (Some e)
            | None =>
                _ <- log_Infof (ID tx) (TxHash w b) (From tx) ;;
                err <- l2Client_SendTransaction b ;;
                match err with
                | Some e => ret (Some e)
                | None => sendTxs txs'
                end
            end
        end
      else sendTxs txs'
  end.

Definition ApplyTxs (txs : list Tx) (initialRoot finalRoot : string) : M (option error) :=
  err <- ethclient_Dial l2NetworkURL ;;
  match err with
  | Some e => ret (Some e)
  | None =>
      '(currentBatchNumber, err) <- st_GetLastBatchNumberSeenOnEthereum ;;
      match err with
      | Some e => ret (Some e)
      | None =>
          err <- sendTxs txs ;;
          match err with
          | Some e => ret (Some e)
          | None =>
              err <- Poll w (defaultInterval w) (defaultDeadline w)
                       ('(latestBatchNumber, err) <-
                           st_GetLastBatchNumberConsolidatedOnEthereum ;;
                        match err with
                        | Some e => ret (false, Some e)
                        | None =>
                            let done := latestBatchNumber >? currentBatchNumber in
                            ret (done, None)
                        end) ;;
              if negb (String.eqb initialRoot "") && negb (String.eqb finalRoot "")
                 && negb (String.eqb initialRoot finalRoot)
                 && match err with Some _ => true | None => false end
              then ret err
              else ret None
          end
      end
  end.









End Manager.


(** The transactions [ApplyTxs] sends. *)
Definition sendable (tx : Tx) : bool :=
  negb (String.eqb (RawTx tx) "") && String.eqb (Overwrite_S tx) "".

Definition isDigit (c : ascii) : bool :=
  (48 <=? Z.of_nat (nat_of_ascii c)) && (Z.of_nat (nat_of_ascii c) <=? 57).

(** A world in which every call succeeds, the state root is the bytes
    [0x01 0x00], and waiting fails. *)
Definition quietWorld : World :=
  mkWorld (fun _ _ => None) (fun _ _ => None)
          (fun _ => (5, None)) (fun _ => (5, None))
          (fun _ _ => ([x01; x00], None))
          (fun s => ([x2a], None)) (fun _ => None) (fun b => b)
          (fun _ _ => None)
          (fun _ _ _ tr => (Some (ExternalError "deadline exceeded"), tr))
          1 10
          (fun tr => ((true, None), tr)) (fun tr => ((true, None), tr))
          (fun tr => ((true, None), tr)).

(** A world in which every command fails. *)
Definition brokenWorld : World :=
  mkWorld (fun _ _ => Some (ExternalError "exit status 2")) (fun _ _ => None)
          (fun _ => (5, None)) (fun _ => (5, None))
          (fun _ _ => ([], None))
          (fun s => ([], Some (ExternalError "invalid hex"))) (fun _ => None) (fun b => b)
          (fun _ _ => None)
          (fun _ _ _ tr => (None, tr))
          1 10
          (fun tr => ((true, None), tr)) (fun tr => ((true, None), tr))
          (fun tr => ((true, None), tr)).

End Operations.

(** * The JSON-RPC client (package [nodekit]) *)

Module NodeKit.

Definition Name : string := "proxy".
Definition JSONRPCEndpoint : string := "/rpc".

(** [strings.HasSuffix]: [len(s) >= len(suffix) &&
    s[len(s)-len(suffix):] == suffix]. *)
Definition HasSuffix (s suffix : string) : bool :=
  (String.length suffix <=? String.length s)%nat
  && String.eqb (substring (String.length s - String.length suffix)
                           (String.length suffix) s) suffix.

(** [strings.TrimSuffix]: [s[:len(s)-len(suffix)]] when [s] has the
    suffix, [s] otherwise. *)
Definition TrimSuffix (s suffix : string) : string :=
  if HasSuffix s suffix
  then substring 0 (String.length s - String.length suffix) s
  else s.

Section Client.

(** [EndpointRequester] and its constructor belong to another file of the
    package. *)
Variable EndpointRequester : Type.
Variable NewRequester : string -> string -> EndpointRequester.

Record JSONRPCClient : Type := mkJSONRPCClient { requester : EndpointRequester }.

Definition NewJSONRPCClient (uri : string) : JSONRPCClient :=
  let uri := TrimSuffix uri "/" in
  let uri := String.append uri JSONRPCEndpoint in
  let req := NewRequester uri Name in
  mkJSONRPCClient req.

End Client.

End NodeKit.

(** ** Facts about the big-integer conversions *)

Section BigIntFacts.

Lemma byte_val_range (b : byte) : 0 <= byte_val b < 256.
Proof.
  unfold byte_val. pose proof (Byte.to_N_bounded b) as Hb.
  split; [apply N2Z.is_nonneg | lia].
Qed.

Lemma byte_val_byte_at (n : Z) (i : nat) :
  byte_val (byte_at n i) = (n / 256 ^ Z.of_nat i) mod 256.
Proof.
  unfold byte_val, byte_at.
  set (v := (n / 256 ^ Z.of_nat i) mod 256).
  assert (Hv : 0 <= v < 256) by (apply Z.mod_pos_bound; lia).
  destruct (Byte.of_N (Z.to_N v)) as [b|] eqn:E.
  - apply Byte.to_of_N in E. rewrite E. lia.
  - apply Byte.of_N_None_iff in E. lia.
Qed.

Lemma SetBytes_acc (l : list byte) (acc : Z) :
  fold_left (fun a b => a * 256 + byte_val b) l acc
  = acc * 256 ^ Z.of_nat (List.length l) + SetBytes l.
Proof.
  unfold SetBytes. revert acc.
  induction l as [|b l IH]; intro acc.
  - simpl. lia.
  - cbn [fold_left List.length]. rewrite IH, (IH (0 * 256 + byte_val b)).
    rewrite Nat2Z.inj_succ, Z.pow_succ_r by lia. ring.
Qed.

Lemma SetBytes_cons (b : byte) (l : list byte) :
  SetBytes (b :: l) = byte_val b * 256 ^ Z.of_nat (List.length l) + SetBytes l.
Proof.
  unfold SetBytes at 1. cbn [fold_left]. rewrite SetBytes_acc. ring.
Qed.

Lemma SetBytes_range (l : list byte) :
  0 <= SetBytes l < 256 ^ Z.of_nat (List.length l).
Proof.
  induction l as [|b l IH].
  - cbn. lia.
  - rewrite SetBytes_cons. cbn [List.length].
    rewrite Nat2Z.inj_succ, Z.pow_succ_r by lia.
    pose proof (byte_val_range b). nia.
Qed.

(** Reading back the bytes of weights [256^i .. 256^(i+len-1)]. *)
Lemma SetBytes_window (len i : nat) (n : Z) :
  SetBytes (map (byte_at n) (rev (seq i len)))
  = (n / 256 ^ Z.of_nat i) mod 256 ^ Z.of_nat len.
Proof.
  induction len as [|len IH].
  - cbn. now rewrite Z.mod_1_r.
  - rewrite seq_S, rev_app_distr. cbn [rev app map].
    rewrite SetBytes_cons, IH, byte_val_byte_at.
    rewrite length_map, length_rev, length_seq.
    rewrite Nat2Z.inj_add, Z.pow_add_r by lia.
    rewrite <- Z.div_div by lia.
    rewrite Nat2Z.inj_succ, Z.pow_succ_r by lia.
    set (m := n / 256 ^ Z.of_nat i). set (P := 256 ^ Z.of_nat len).
    assert (HP : 0 < P) by (apply Z.pow_pos_nonneg; lia).
    replace (256 * P) with (P * 256) by ring.
    rewrite Z.rem_mul_r by lia. ring.
Qed.

Lemma SetBytes_FillBytes (len : nat) (n : Z) :
  SetBytes (FillBytes len n) = n mod 256 ^ Z.of_nat len.
Proof.
  unfold FillBytes. rewrite SetBytes_window. cbn [Z.of_nat].
  now rewrite Z.pow_0_r, Z.div_1_r.
Qed.

Lemma FillBytes_length (len : nat) (n : Z) : List.length (FillBytes len n) = len.
Proof.
  unfold FillBytes. now rewrite length_map, length_rev, length_seq.
Qed.

End BigIntFacts.

(** ** Facts about the field-element encoding *)

Section EncoderFacts.

Lemma limb_range (n i : Z) : 0 <= limb n i < 2 ^ 32.
Proof. unfold limb. apply Z.mod_pos_bound. lia. Qed.

Lemma limb_high_zero (w n i : Z) :
  0 <= n < 2 ^ w -> 0 <= w <= 32 * i -> limb n i = 0.
Proof.
  intros Hn Hw. unfold limb.
  rewrite Z.div_small; [reflexivity|].
  split; [lia|]. apply Z.lt_le_trans with (2 ^ w); [lia|].
  apply Z.pow_le_mono_r; lia.
Qed.

Lemma groups_of_FillBytes (n : Z) :
  rev (map SetBytes (groups4 8 (FillBytes 32 n))) = fea n.
Proof.
  unfold FillBytes. cbn [seq rev app map groups4 firstn skipn].
  pose proof (SetBytes_window 4 0 n) as W0.
  pose proof (SetBytes_window 4 4 n) as W1.
  pose proof (SetBytes_window 4 8 n) as W2.
  pose proof (SetBytes_window 4 12 n) as W3.
  pose proof (SetBytes_window 4 16 n) as W4.
  pose proof (SetBytes_window 4 20 n) as W5.
  pose proof (SetBytes_window 4 24 n) as W6.
  pose proof (SetBytes_window 4 28 n) as W7.
  cbn [seq rev app map] in W0, W1, W2, W3, W4, W5, W6, W7.
  rewrite W0, W1, W2, W3, W4, W5, W6, W7.
  reflexivity.
Qed.

Lemma scalar2fea_ok (w n : Z) :
  0 <= n < 2 ^ w -> scalar2fea w n = Returned (fea n).
Proof.
  intros [Hlo Hhi]. unfold scalar2fea.
  replace (n <? 0) with false by (symmetry; apply Z.ltb_ge; lia).
  replace (2 ^ w <=? n) with false by (symmetry; apply Z.leb_gt; lia).
  cbn [orb]. now rewrite groups_of_FillBytes.
Qed.

Lemma scalar2fea_fail (w n : Z) :
  n < 0 \/ 2 ^ w <= n -> scalar2fea w n = Panicked EncodingError.
Proof.
  intros H. unfold scalar2fea.
  destruct H as [H|H].
  - replace (n <? 0) with true by (symmetry; apply Z.ltb_lt; lia). reflexivity.
  - replace (2 ^ w <=? n) with true by (symmetry; apply Z.leb_le; lia).
    now rewrite orb_true_r.
Qed.

(** The limbs are the base-[2^32] digits of [n]. *)
Lemma fea_recompose (n : Z) :
  0 <= n < 2 ^ 256 ->
  limb n 0 + 2 ^ 32 * (limb n 1 + 2 ^ 32 * (limb n 2 + 2 ^ 32 * (limb n 3
    + 2 ^ 32 * (limb n 4 + 2 ^ 32 * (limb n 5 + 2 ^ 32 * (limb n 6
    + 2 ^ 32 * limb n 7)))))) = n.
Proof.
  intros Hn.
  assert (step : forall i, 0 <= i ->
            n / 2 ^ (32 * i) = limb n i + 2 ^ 32 * (n / 2 ^ (32 * (i + 1)))).
  { intros i Hi. unfold limb.
    replace (32 * (i + 1)) with (32 * i + 32) by ring.
    rewrite Z.pow_add_r, <- Z.div_div by lia.
    pose proof (Z.div_mod (n / 2 ^ (32 * i)) (2 ^ 32)). lia. }
  assert (top : limb n 7 = n / 2 ^ (32 * 7)).
  { unfold limb. apply Z.mod_small. split.
    - apply Z.div_pos; lia.
    - apply Z.div_lt_upper_bound; [lia|].
      replace (2 ^ (32 * 7) * 2 ^ 32) with (2 ^ 256) by reflexivity. lia. }
  pose proof (step 0 ltac:(lia)) as S0. pose proof (step 1 ltac:(lia)) as S1.
  pose proof (step 2 ltac:(lia)) as S2. pose proof (step 3 ltac:(lia)) as S3.
  pose proof (step 4 ltac:(lia)) as S4. pose proof (step 5 ltac:(lia)) as S5.
  pose proof (step 6 ltac:(lia)) as S6.
  cbn [Z.add Z.mul Pos.add Pos.mul Pos.succ] in S0, S1, S2, S3, S4, S5, S6, top.
  rewrite Z.pow_0_r, Z.div_1_r in S0.
  lia.
Qed.

Lemma fea_inj (n m : Z) :
  0 <= n < 2 ^ 256 -> 0 <= m < 2 ^ 256 -> fea n = fea m -> n = m.
Proof.
  intros Hn Hm E. unfold fea in E.
  injection E as E0 E1 E2 E3 E4 E5 E6 E7.
  rewrite <- (fea_recompose n Hn), <- (fea_recompose m Hm).
  now rewrite E0, E1, E2, E3, E4, E5, E6, E7.
Qed.

End EncoderFacts.

(** ** Facts about addresses and the key serialisation *)

Section CodecFacts.

Lemma Address_range (a : Address) : 0 <= SetBytes (Bytes a) < 2 ^ 160.
Proof.
  pose proof (SetBytes_range (Bytes a)) as H.
  rewrite (Bytes_length a) in H. exact H.
Qed.

(** For an address the declared width makes no difference: its integer is
    below [2^160], so the encoding is the same under either width. *)
Lemma scalar2fea_address_width (a : Address) :
  scalar2fea 160 (SetBytes (Bytes a)) = scalar2fea 256 (SetBytes (Bytes a)).
Proof.
  pose proof (Address_range a) as H.
  rewrite !scalar2fea_ok; [reflexivity | lia | lia].
Qed.

Lemma h4ToFilledByteSlice_length (d : arr4) :
  List.length (h4ToFilledByteSlice (arr4_slice d)) = 32%nat.
Proof.
  unfold h4ToFilledByteSlice, arr4_slice. cbn [flat_map].
  repeat rewrite length_app. repeat rewrite FillBytes_length. reflexivity.
Qed.

Lemma FillBytes8_inj (x y : Z) :
  uint64_ok x -> uint64_ok y -> FillBytes 8 x = FillBytes 8 y -> x = y.
Proof.
  unfold uint64_ok. intros Hx Hy E.
  apply (f_equal SetBytes) in E. rewrite !SetBytes_FillBytes in E.
  change (256 ^ Z.of_nat 8) with (2 ^ 64) in E.
  rewrite !Z.mod_small in E by lia. exact E.
Qed.

Lemma app_inj_length {A : Type} (l1 l2 r1 r2 : list A) :
  List.length l1 = List.length l2 -> l1 ++ r1 = l2 ++ r2 -> l1 = l2 /\ r1 = r2.
Proof.
  revert l2. induction l1 as [|x l1 IH]; intros [|y l2] Hlen E;
    cbn in Hlen; try discriminate.
  - now split.
  - cbn in E. injection E as -> E. injection Hlen as Hlen.
    destruct (IH l2 Hlen E) as [-> ->]. now split.
Qed.

(** The serialisation loses nothing on 64-bit words. *)
Lemma h4ToFilledByteSlice_inj (d d' : arr4) :
  arr4_ok d -> arr4_ok d' ->
  h4ToFilledByteSlice (arr4_slice d) = h4ToFilledByteSlice (arr4_slice d') ->
  d = d'.
Proof.
  destruct d as [a b c e], d' as [a' b' c' e'].
  unfold arr4_ok, h4ToFilledByteSlice, arr4_slice. cbn [h0 h1 h2 h3 flat_map].
  intros (Ha & Hb & Hc & He) (Ha' & Hb' & Hc' & He') E.
  rewrite !app_nil_r in E.
  apply app_inj_length in E; [|now rewrite !FillBytes_length]. destruct E as [E0 E].
  apply app_inj_length in E; [|now rewrite !FillBytes_length]. destruct E as [E1 E].
  apply app_inj_length in E; [|now rewrite !FillBytes_length]. destruct E as [E2 E3].
  apply FillBytes8_inj in E0, E1, E2, E3; try assumption.
  now subst.
Qed.

Lemma stringToh4_seed_ok : snd (stringToh4 HashPoseidonAllZeroes) = None.
Proof. vm_compute. reflexivity. Qed.

End CodecFacts.

(** ** What each derivation returns and which calls it makes *)

Section DerivationFacts.

Variable Hash : arr8 -> arr4 -> arr4 * option error.

Lemma keyEthAddr_run (a : Address) (lt : leafType) (cap : arr4) (tr : list event) :
  keyEthAddr Hash a lt cap tr
  = (Returned (finish (Hash (key1_of a lt) cap)), tr ++ [EvHash (key1_of a lt) cap]).
Proof.
  unfold keyEthAddr. rewrite (scalar2fea_ok 160) by apply Address_range.
  unfold bind, call, poseidon_Hash, emit, ret, finish, key1_of.
  cbn [idx nth fea].
  destruct (Hash _ cap) as [d [e|]]; reflexivity.
Qed.

Lemma defaultCapIn_run (tr : list event) :
  defaultCapIn tr
  = (Returned (defaultCap, None), tr ++ [EvStringToh4 HashPoseidonAllZeroes]).
Proof.
  unfold defaultCapIn, call_stringToh4, bind, emit, ret, defaultCap.
  pose proof stringToh4_seed_ok as Hs.
  destruct (stringToh4 HashPoseidonAllZeroes) as [capIn err].
  cbn [fst snd] in *. subst err. reflexivity.
Qed.

Lemma single_stage_run (lt : leafType) (a : Address) (tr : list event) :
  bind defaultCapIn
       (fun r => match r with
                 | (capIn, Some e) => ret ([], Some e)
                 | (capIn, None) => keyEthAddr Hash a lt capIn
                 end) tr
  = (Returned (finish (Hash (key1_of a lt) defaultCap)),
     tr ++ [EvStringToh4 HashPoseidonAllZeroes; EvHash (key1_of a lt) defaultCap]).
Proof.
  unfold bind at 1. rewrite defaultCapIn_run, keyEthAddr_run.
  now rewrite <- app_assoc.
Qed.

Lemma KeyEthAddrBalance_run (a : Address) (tr : list event) :
  KeyEthAddrBalance Hash a tr
  = (Returned (finish (Hash (key1_of a leafTypeBalance) defaultCap)),
     tr ++ [EvStringToh4 HashPoseidonAllZeroes;
            EvHash (key1_of a leafTypeBalance) defaultCap]).
Proof. apply single_stage_run. Qed.

Lemma KeyEthAddrNonce_run (a : Address) (tr : list event) :
  KeyEthAddrNonce Hash a tr
  = (Returned (finish (Hash (key1_of a leafTypeNonce) defaultCap)),
     tr ++ [EvStringToh4 HashPoseidonAllZeroes;
            EvHash (key1_of a leafTypeNonce) defaultCap]).
Proof. apply single_stage_run. Qed.

Lemma KeyContractCode_run (a : Address) (tr : list event) :
  KeyContractCode Hash a tr
  = (Returned (finish (Hash (key1_of a leafTypeCode) defaultCap)),
     tr ++ [EvStringToh4 HashPoseidonAllZeroes;
            EvHash (key1_of a leafTypeCode) defaultCap]).
Proof. apply single_stage_run. Qed.

Lemma KeyContractStorage_overwidth (a : Address) (pos : list byte) (tr : list event) :
  2 ^ 256 <= SetBytes pos ->
  KeyContractStorage Hash a pos tr = (Panicked EncodingError, tr).
Proof.
  intros H. unfold KeyContractStorage.
  rewrite scalar2fea_fail by now right. reflexivity.
Qed.

Lemma KeyContractStorage_run (a : Address) (pos : list byte) (tr : list event) :
  SetBytes pos < 2 ^ 256 ->
  KeyContractStorage Hash a pos tr
  = match Hash (posFE_of pos) (A4 0 0 0 0) with
    | (_, Some e) =>
        (Returned ([], Some e), tr ++ [EvHash (posFE_of pos) (A4 0 0 0 0)])
    | (hk0, None) =>
        (Returned (finish (Hash (key1_of a leafTypeStorage) hk0)),
         tr ++ [EvHash (posFE_of pos) (A4 0 0 0 0);
                EvHash (key1_of a leafTypeStorage) hk0])
    end.
Proof.
  intros H. unfold KeyContractStorage.
  rewrite (scalar2fea_ok 256) by (split; [apply SetBytes_range | exact H]).
  unfold bind at 1, call. unfold bind at 1, poseidon_Hash.
  unfold bind at 1, emit, ret. cbn [idx nth fea]. fold (posFE_of pos).
  destruct (Hash (posFE_of pos) (A4 0 0 0 0)) as [hk0 [e|]].
  - reflexivity.
  - rewrite keyEthAddr_run. now rewrite <- app_assoc.
Qed.

End DerivationFacts.

(** ** Facts about the table-driven hash *)

Section TableFacts.

Lemma arr4_eqb_eq (x y : arr4) : arr4_eqb x y = true <-> x = y.
Proof.
  destruct x, y. unfold arr4_eqb. cbn [h0 h1 h2 h3].
  rewrite !andb_true_iff, !Z.eqb_eq. split.
  - intros [[[-> ->] ->] ->]. reflexivity.
  - intros E. injection E as -> -> -> ->. auto.
Qed.

Lemma arr8_eqb_eq (x y : arr8) : arr8_eqb x y = true <-> x = y.
Proof.
  destruct x, y. unfold arr8_eqb. cbn [e0 e1 e2 e3 e4 e5 e6 e7].
  rewrite !andb_true_iff, !Z.eqb_eq. split.
  - intros [[[[[[[-> ->] ->] ->] ->] ->] ->] ->]. reflexivity.
  - intros E. injection E as -> -> -> -> -> -> -> ->. repeat split.
Qed.

Lemma lookup_In tbl x c d : lookup tbl x c = Some d -> In ((x, c), d) tbl.
Proof.
  induction tbl as [|[[x' c'] d'] tbl IH]; cbn [lookup]; [discriminate|].
  destruct (arr8_eqb x x' && arr4_eqb c c') eqn:E.
  - intros [= ->]. apply andb_true_iff in E as [Ex Ec].
    apply arr8_eqb_eq in Ex. apply arr4_eqb_eq in Ec. subst. now left.
  - intros H. right. now apply IH.
Qed.

Lemma NoDup_snd_inj {K V : Type} (tbl : list (K * V)) k k' v :
  NoDup (map snd tbl) -> In (k, v) tbl -> In (k', v) tbl -> k = k'.
Proof.
  induction tbl as [|[k0 v0] tbl IH]; cbn [map snd]; [intros _ []|].
  intros Hnd H1 H2. inversion Hnd as [|? ? Hnotin Hnd']; subst.
  destruct H1 as [H1|H1], H2 as [H2|H2].
  - congruence.
  - injection H1 as -> ->. exfalso. apply Hnotin.
    change v with (snd (k', v)). now apply in_map.
  - injection H2 as -> ->. exfalso. apply Hnotin.
    change v with (snd (k, v)). now apply in_map.
  - now apply IH.
Qed.

Lemma tableHash_Some tbl x c d :
  tableHash tbl x c = (d, None) -> In ((x, c), d) tbl.
Proof.
  unfold tableHash. destruct (lookup tbl x c) as [d0|] eqn:E; [|discriminate].
  intros [= ->]. now apply lookup_In.
Qed.

(** A table with pairwise different digests is a collision-free hash. *)
Lemma tableHash_collision_free tbl :
  NoDup (map snd tbl) -> collision_free (tableHash tbl).
Proof.
  intros Hnd x c x' c' d H1 H2.
  apply tableHash_Some in H1, H2.
  pose proof (NoDup_snd_inj tbl _ _ _ Hnd H1 H2) as E.
  now injection E.
Qed.

Lemma tableHash_uint64 tbl :
  Forall (fun e => arr4_ok (snd e)) tbl -> uint64_digests (tableHash tbl).
Proof.
  intros Hall x c d H. apply tableHash_Some in H.
  rewrite Forall_forall in Hall. exact (Hall _ H).
Qed.

Lemma demoHash_collision_free : collision_free demoHash.
Proof.
  apply tableHash_collision_free. cbn [demoTable map snd].
  repeat (constructor; [cbn [In]; intuition discriminate|]). constructor.
Qed.

Lemma demoHash_collision_free_on calls : collision_free_on calls demoHash.
Proof.
  intros x c x' c' d _ _. apply demoHash_collision_free.
Qed.

Lemma demoHash_uint64 : uint64_digests demoHash.
Proof.
  apply tableHash_uint64. unfold demoTable.
  repeat (constructor; [cbv [arr4_ok uint64_ok snd h0 h1 h2 h3]; lia|]).
  constructor.
Qed.

End TableFacts.

(** ** Reading a derivation's result back *)

Section ResultFacts.

Variable Hash : arr8 -> arr4 -> arr4 * option error.

Lemma finish_None_inv (r : arr4 * option error) (k : list byte) :
  finish r = (k, None) ->
  snd r = None /\ k = h4ToFilledByteSlice (arr4_slice (fst r)).
Proof.
  unfold finish. destruct r as [d [e|]]; cbn [fst snd]; intros [= <-]; auto.
Qed.

Lemma finish_Some_inv (r : arr4 * option error) (k : list byte) (e : error) :
  finish r = (k, Some e) -> snd r = Some e /\ k = [].
Proof.
  unfold finish. destruct r as [d [e'|]]; cbn [fst snd]; intros [= <- <-]; auto.
Qed.

Lemma finish_cases (r : arr4 * option error) :
  (snd r = None /\ finish r = (h4ToFilledByteSlice (arr4_slice (fst r)), None))
  \/ (exists e, snd r = Some e /\ finish r = ([], Some e)).
Proof.
  unfold finish. destruct r as [d [e|]]; cbn [fst snd]; [right; eauto | left; auto].
Qed.

Lemma KeyContractStorage_returned_inv a pos tr r tr' :
  KeyContractStorage Hash a pos tr = (Returned r, tr') -> SetBytes pos < 2 ^ 256.
Proof.
  intros H. destruct (Z.lt_ge_cases (SetBytes pos) (2 ^ 256)) as [Hlt|Hge]; [exact Hlt|].
  rewrite KeyContractStorage_overwidth in H by exact Hge. discriminate.
Qed.

(** A storage derivation that produced a key made two successful calls. *)
Lemma KeyContractStorage_key_inv a pos tr k tr' :
  KeyContractStorage Hash a pos tr = (Returned (k, None), tr') ->
  SetBytes pos < 2 ^ 256 /\
  exists hk0 d,
    Hash (posFE_of pos) (A4 0 0 0 0) = (hk0, None) /\
    Hash (key1_of a leafTypeStorage) hk0 = (d, None) /\
    k = h4ToFilledByteSlice (arr4_slice d) /\
    tr' = tr ++ [EvHash (posFE_of pos) (A4 0 0 0 0);
                 EvHash (key1_of a leafTypeStorage) hk0].
Proof.
  intros H.
  assert (Hlt : SetBytes pos < 2 ^ 256)
    by (eapply KeyContractStorage_returned_inv; eauto).
  split; [exact Hlt|].
  rewrite KeyContractStorage_run in H by exact Hlt.
  destruct (Hash (posFE_of pos) (A4 0 0 0 0)) as [hk0 [e|]] eqn:E0.
  - discriminate.
  - injection H as H <-. apply finish_None_inv in H as [Hs ->].
    exists hk0, (fst (Hash (key1_of a leafTypeStorage) hk0)).
    split; [reflexivity|]. split; [|split; reflexivity].
    destruct (Hash (key1_of a leafTypeStorage) hk0) as [d o]. cbn [fst snd] in *.
    now subst o.
Qed.

(** A single-stage derivation that produced a key made one successful call. *)
Lemma single_stage_key_inv x c k (t t' : list event) :
  (Returned (finish (Hash x c)), t) = (Returned (k, None), t') ->
  t = t' /\ exists d, Hash x c = (d, None) /\ k = h4ToFilledByteSlice (arr4_slice d).
Proof.
  intros [= H Ht]. split; [exact Ht|]. apply finish_None_inv in H as [Hs ->].
  exists (fst (Hash x c)). destruct (Hash x c) as [d o]. cbn [fst snd] in *.
  now subst o.
Qed.

(** Different hash inputs give different keys when the hash does not
    collide on them. *)
Lemma keys_differ calls x c d x' c' d' :
  collision_free_on calls Hash -> uint64_digests Hash ->
  In (x, c) calls -> In (x', c') calls ->
  Hash x c = (d, None) -> Hash x' c' = (d', None) ->
  x <> x' \/ c <> c' ->
  h4ToFilledByteSlice (arr4_slice d) <> h4ToFilledByteSlice (arr4_slice d').
Proof.
  intros Hcf Hu Hin Hin' H H' Hne E.
  apply h4ToFilledByteSlice_inj in E; eauto.
  subst d'. destruct (Hcf _ _ _ _ _ Hin Hin' H H') as [-> ->].
  destruct Hne as [Hne|Hne]; now apply Hne.
Qed.

End ResultFacts.

(** * The claims *)

(** C1. For every 20-byte address, [KeyEthAddrBalance], [KeyEthAddrNonce]
    and [KeyContractCode] make one hash call, on the 8-element message
    [[addrFE[0], addrFE[1], addrFE[2], addrFE[3], addrFE[4], 0, tag, 0]]
    where [addrFE] is the field-element encoding of the address and [tag] is
    0 for balance, 1 for nonce and 2 for code, with the default capacity
    (the digest parsed from [HashPoseidonAllZeroes]) as the capacity; the
    result is made from what that call returns. *)
Theorem C1_single_stage_hash_input
  (Hash : arr8 -> arr4 -> arr4 * option error) (a : Address) (tr : list event) :
  exists addrFE capIn,
    scalar2fea 160 (SetBytes (Bytes a)) = Returned addrFE /\
    stringToh4 HashPoseidonAllZeroes = (capIn, None) /\
    let cap := A4 (idx capIn 0) (idx capIn 1) (idx capIn 2) (idx capIn 3) in
    let key1 := fun tag =>
      A8 (idx addrFE 0) (idx addrFE 1) (idx addrFE 2) (idx addrFE 3) (idx addrFE 4)
         0 tag 0 in
    (hash_calls (snd (KeyEthAddrBalance Hash a tr)) = hash_calls tr ++ [(key1 0, cap)] /\
     fst (KeyEthAddrBalance Hash a tr) = Returned (finish (Hash (key1 0) cap))) /\
    (hash_calls (snd (KeyEthAddrNonce Hash a tr)) = hash_calls tr ++ [(key1 1, cap)] /\
     fst (KeyEthAddrNonce Hash a tr) = Returned (finish (Hash (key1 1) cap))) /\
    (hash_calls (snd (KeyContractCode Hash a tr)) = hash_calls tr ++ [(key1 2, cap)] /\
     fst (KeyContractCode Hash a tr) = Returned (finish (Hash (key1 2) cap))).
Proof.
  exists (fea (SetBytes (Bytes a))), (fst (stringToh4 HashPoseidonAllZeroes)).
  split; [apply scalar2fea_ok, Address_range|].
  split.
  { pose proof stringToh4_seed_ok as Hs.
    destruct (stringToh4 HashPoseidonAllZeroes) as [capIn err].
    cbn [fst snd] in *. now subst err. }
  cbv zeta. cbn [idx nth fea]. fold defaultCap.
  rewrite KeyEthAddrBalance_run, KeyEthAddrNonce_run, KeyContractCode_run.
  cbn [fst snd]. unfold hash_calls. rewrite !flat_map_app.
  cbn [flat_map app]. unfold key1_of. cbn [uint64_of_leafType].
  repeat split.
Qed.

(** C2. For every address and storage position whose encoding [posFE]
    exists, when the first hash call [Hash posFE zeroCapacity] returns the
    digest [hk0], [KeyContractStorage] performs exactly two hash calls, in
    this order: [Hash posFE [0,0,0,0]] and then
    [Hash [addrFE[0..4], 0, 3, 0] hk0]; the capacity of the second call is
    [hk0], and the result is made from what the second call returns. *)
Theorem C2_storage_two_hash_calls
  (Hash : arr8 -> arr4 -> arr4 * option error)
  (a : Address) (storagePos : list byte) (posFE : list Z) (hk0 : arr4)
  (tr : list event) :
  scalar2fea 256 (SetBytes storagePos) = Returned posFE ->
  Hash (A8 (idx posFE 0) (idx posFE 1) (idx posFE 2) (idx posFE 3)
           (idx posFE 4) (idx posFE 5) (idx posFE 6) (idx posFE 7))
       (A4 0 0 0 0) = (hk0, None) ->
  exists addrFE,
    scalar2fea 160 (SetBytes (Bytes a)) = Returned addrFE /\
    let input0 := A8 (idx posFE 0) (idx posFE 1) (idx posFE 2) (idx posFE 3)
                     (idx posFE 4) (idx posFE 5) (idx posFE 6) (idx posFE 7) in
    let key1 := A8 (idx addrFE 0) (idx addrFE 1) (idx addrFE 2) (idx addrFE 3)
                   (idx addrFE 4) 0 3 0 in
    KeyContractStorage Hash a storagePos tr
    = (Returned (finish (Hash key1 hk0)),
       tr ++ [EvHash input0 (A4 0 0 0 0); EvHash key1 hk0]).
Proof.
  intros Henc H0.
  exists (fea (SetBytes (Bytes a))).
  split; [apply scalar2fea_ok, Address_range|].
  assert (Hlt : SetBytes storagePos < 2 ^ 256).
  { destruct (Z.lt_ge_cases (SetBytes storagePos) (2 ^ 256)) as [Hlt|Hge]; [exact Hlt|].
    rewrite scalar2fea_fail in Henc by now right. discriminate. }
  rewrite scalar2fea_ok in Henc by (split; [apply SetBytes_range | exact Hlt]).
  injection Henc as <-.
  cbv zeta. cbn [idx nth fea] in *. fold (posFE_of storagePos) in *.
  rewrite KeyContractStorage_run by exact Hlt. rewrite H0. reflexivity.
Qed.

Lemma C2_storage_two_hash_calls_witness :
  KeyContractStorage demoHash zeroAddr [x01] []
  = (Returned (h4ToFilledByteSlice [31; 0; 0; 0], None),
     [EvHash (A8 1 0 0 0 0 0 0 0) (A4 0 0 0 0);
      EvHash (A8 0 0 0 0 0 0 3 0) (A4 21 0 0 0)]).
Proof.
  destruct (C2_storage_two_hash_calls demoHash zeroAddr [x01]
              [1; 0; 0; 0; 0; 0; 0; 0] (A4 21 0 0 0) [])
    as [addrFE [Ha Hrun]].
  - vm_compute. reflexivity.
  - vm_compute. reflexivity.
  - cbv zeta in Hrun. rewrite Hrun.
    assert (E : addrFE = [0; 0; 0; 0; 0; 0; 0; 0]).
    { vm_compute in Ha. now injection Ha. }
    subst addrFE. vm_compute. reflexivity.
Defined.

(** C3 as stated fails: the positions [0x00 0x01] and [0x01] are different
    byte slices, and every hash and address give them the same result. *)
Lemma C3_leading_zero_counterexample :
  [x00; x01] <> [x01] /\
  (List.length [x00; x01] <= 32)%nat /\ (List.length [x01] <= 32)%nat /\
  fst (KeyContractStorage demoHash zeroAddr [x00; x01] [])
    = Returned (h4ToFilledByteSlice [31; 0; 0; 0], None) /\
  fst (KeyContractStorage demoHash zeroAddr [x01] [])
    = Returned (h4ToFilledByteSlice [31; 0; 0; 0], None) /\
  forall (Hash : arr8 -> arr4 -> arr4 * option error) (a : Address) (tr : list event),
    KeyContractStorage Hash a [x00; x01] tr = KeyContractStorage Hash a [x01] tr.
Proof.
  split; [discriminate|]. split; [cbn; lia|]. split; [cbn; lia|].
  split; [vm_compute; reflexivity|]. split; [vm_compute; reflexivity|].
  intros Hash a tr. reflexivity.
Qed.

(** C3, amended. For every fixed address and every two storage positions
    that denote different big-endian integers, two storage derivations that
    both return a key return different keys, provided the hash does not
    collide on the calls the two derivations make and its digests are
    64-bit words. *)
Theorem C3_storage_position_separation
  (Hash : arr8 -> arr4 -> arr4 * option error)
  (a : Address) (p q : list byte) (k k' : list byte) (trp trq : list event) :
  SetBytes p <> SetBytes q ->
  KeyContractStorage Hash a p [] = (Returned (k, None), trp) ->
  KeyContractStorage Hash a q [] = (Returned (k', None), trq) ->
  collision_free_on (hash_calls (trp ++ trq)) Hash ->
  uint64_digests Hash ->
  k <> k'.
Proof.
  intros Hpq Hp Hq Hcf Hu.
  apply KeyContractStorage_key_inv in Hp as (Hp & hk & d & Hp0 & Hp1 & -> & ->).
  apply KeyContractStorage_key_inv in Hq as (Hq & hk' & d' & Hq0 & Hq1 & -> & ->).
  cbn [app hash_calls flat_map] in Hcf.
  apply (keys_differ Hash _ (key1_of a leafTypeStorage) hk d
           (key1_of a leafTypeStorage) hk' d' Hcf Hu).
  - cbn [In]. auto.
  - cbn [In]. auto 6.
  - exact Hp1.
  - exact Hq1.
  - right. intros <-.
    destruct (Hcf (posFE_of p) (A4 0 0 0 0) (posFE_of q) (A4 0 0 0 0) hk) as [E _];
      [cbn [In]; auto | cbn [In]; auto 6 | exact Hp0 | exact Hq0 |].
    apply Hpq. apply fea_inj.
    + split; [apply SetBytes_range | exact Hp].
    + split; [apply SetBytes_range | exact Hq].
    + unfold posFE_of in E. unfold fea. now injection E as -> -> -> -> -> -> -> ->.
Qed.

Lemma C3_storage_position_separation_witness :
  fst (KeyContractStorage demoHash zeroAddr [x01] [])
    = Returned (h4ToFilledByteSlice [31; 0; 0; 0], None) /\
  fst (KeyContractStorage demoHash zeroAddr [x02] [])
    = Returned (h4ToFilledByteSlice [32; 0; 0; 0], None) /\
  h4ToFilledByteSlice [31; 0; 0; 0] <> h4ToFilledByteSlice [32; 0; 0; 0].
Proof.
  assert (H1 : KeyContractStorage demoHash zeroAddr [x01] []
               = (Returned (h4ToFilledByteSlice [31; 0; 0; 0], None),
                  snd (KeyContractStorage demoHash zeroAddr [x01] [])))
    by (vm_compute; reflexivity).
  assert (H2 : KeyContractStorage demoHash zeroAddr [x02] []
               = (Returned (h4ToFilledByteSlice [32; 0; 0; 0], None),
                  snd (KeyContractStorage demoHash zeroAddr [x02] [])))
    by (vm_compute; reflexivity).
  split; [now rewrite H1|]. split; [now rewrite H2|].
  refine (C3_storage_position_separation demoHash zeroAddr [x01] [x02] _ _ _ _
            _ H1 H2 (demoHash_collision_free_on _) demoHash_uint64).
  vm_compute. discriminate.
Defined.

(** C4. An integer that is negative or needs more bits than the declared
    width makes the encoding fail with [EncodingError]; a derivation step
    that starts from such an encoding fails with it and records no event;
    and [KeyContractStorage] on a storage position of more than 256 bits
    fails with [EncodingError] with the event log unchanged, so without any
    hash call. *)
Theorem C4_overwidth_fails_before_hashing
  (Hash : arr8 -> arr4 -> arr4 * option error)
  (a : Address) (storagePos : list byte) (tr : list event) (w n : Z) :
  (n < 0 \/ 2 ^ w <= n ->
     scalar2fea w n = Panicked EncodingError /\
     forall (A : Type) (k : list Z -> M A),
       bind (call (scalar2fea w n)) k tr = (Panicked EncodingError, tr)) /\
  (2 ^ 256 <= SetBytes storagePos ->
     KeyContractStorage Hash a storagePos tr = (Panicked EncodingError, tr) /\
     hash_calls (snd (KeyContractStorage Hash a storagePos tr)) = hash_calls tr).
Proof.
  split.
  - intros H. split; [now apply scalar2fea_fail|].
    intros A k. unfold bind, call. now rewrite scalar2fea_fail.
  - intros H. rewrite KeyContractStorage_overwidth by exact H. now split.
Qed.

Lemma C4_overwidth_fails_before_hashing_witness :
  scalar2fea 160 (2 ^ 160) = Panicked EncodingError /\
  scalar2fea 256 (-1) = Panicked EncodingError /\
  KeyContractStorage constHash zeroAddr (x01 :: repeat x00 32) []
    = (Panicked EncodingError, []).
Proof.
  split; [|split].
  - apply (C4_overwidth_fails_before_hashing constHash zeroAddr [] [] 160 (2 ^ 160)).
    right. lia.
  - apply (C4_overwidth_fails_before_hashing constHash zeroAddr [] [] 256 (-1)).
    left. lia.
  - apply (C4_overwidth_fails_before_hashing constHash zeroAddr
             (x01 :: repeat x00 32) [] 0 0).
    vm_compute. discriminate.
Defined.

Section SequenceFacts.

Variable Hash : arr8 -> arr4 -> arr4 * option error.

Lemma derive_request_run (r : request) (tr : list event) :
  derive Hash (request_derivation r) tr
  = (Returned (finish (Hash (request_key1 r) defaultCap)),
     tr ++ [EvStringToh4 HashPoseidonAllZeroes; EvHash (request_key1 r) defaultCap]).
Proof.
  destruct r; cbn [derive request_derivation request_key1].
  - apply KeyEthAddrBalance_run.
  - apply KeyEthAddrNonce_run.
  - apply KeyContractCode_run.
Qed.

Lemma derive_all_run (rs : list request) (tr : list event) :
  derive_all Hash rs tr
  = (Returned (map (fun r => finish (Hash (request_key1 r) defaultCap)) rs),
     tr ++ flat_map (fun r => [EvStringToh4 HashPoseidonAllZeroes;
                               EvHash (request_key1 r) defaultCap]) rs).
Proof.
  revert tr. induction rs as [|r rs IH]; intro tr.
  - cbn. now rewrite app_nil_r.
  - cbn [derive_all map flat_map]. unfold bind at 1.
    rewrite derive_request_run. unfold bind at 1. rewrite IH.
    unfold ret. now rewrite <- app_assoc.
Qed.

Lemma parse_calls_app (t1 t2 : list event) :
  parse_calls (t1 ++ t2) = parse_calls t1 ++ parse_calls t2.
Proof. unfold parse_calls. apply flat_map_app. Qed.

Lemma hash_calls_app (t1 t2 : list event) :
  hash_calls (t1 ++ t2) = hash_calls t1 ++ hash_calls t2.
Proof. unfold hash_calls. apply flat_map_app. Qed.

End SequenceFacts.

(** C5 as stated fails: two balance derivations in a row parse the seed
    twice. *)
Lemma C5_recomputed_counterexample :
  parse_calls
    (snd (derive_all constHash [ReqBalance zeroAddr; ReqBalance zeroAddr] []))
  = [HashPoseidonAllZeroes; HashPoseidonAllZeroes].
Proof. vm_compute. reflexivity. Qed.

(** C5, amended. The default capacity is not cached: every balance, nonce
    or code derivation parses [HashPoseidonAllZeroes] again, exactly once,
    so a process that serves [n] such derivations parses it [n] times. The
    parse is a pure function of the constant, so every one of these
    derivations passes the same capacity to the hash; none of them panics. *)
Theorem C5_default_capacity_recomputed
  (Hash : arr8 -> arr4 -> arr4 * option error) (rs : list request) (tr : list event) :
  fst (derive_all Hash rs tr)
    = Returned (map (fun r => finish (Hash (request_key1 r) defaultCap)) rs) /\
  parse_calls (snd (derive_all Hash rs tr))
    = parse_calls tr ++ repeat HashPoseidonAllZeroes (List.length rs) /\
  hash_calls (snd (derive_all Hash rs tr))
    = hash_calls tr ++ map (fun r => (request_key1 r, defaultCap)) rs.
Proof.
  rewrite derive_all_run. cbn [fst snd].
  rewrite parse_calls_app, hash_calls_app.
  split; [reflexivity|]. split; f_equal.
  - induction rs as [|r rs IH]; [reflexivity|].
    unfold parse_calls in *. cbn [flat_map app List.length repeat]. now rewrite IH.
  - induction rs as [|r rs IH]; [reflexivity|].
    unfold hash_calls in *. cbn [flat_map app map]. now rewrite IH.
Qed.

Section EncodingShape.

(** Slot [i] is the [i]-th 4-byte group of the 32-byte big-endian
    representation counted from its least significant end. *)
Lemma slot_is_group (n : Z) (i : nat) :
  (i < 8)%nat ->
  idx (rev (map SetBytes (groups4 8 (FillBytes 32 n)))) i
  = SetBytes (firstn 4 (skipn (4 * (7 - i)) (FillBytes 32 n))).
Proof.
  intros Hi. unfold FillBytes.
  do 8 (destruct i as [|i]; [reflexivity|]). lia.
Qed.

Lemma fea_slot (n : Z) (i : nat) :
  (i < 8)%nat -> idx (fea n) i = limb n (Z.of_nat i).
Proof.
  intros Hi. do 8 (destruct i as [|i]; [reflexivity|]). lia.
Qed.

Lemma fea_slot_range (n : Z) (i : nat) : 0 <= idx (fea n) i < 2 ^ 32.
Proof.
  destruct (Nat.lt_ge_cases i 8) as [Hi|Hi].
  - rewrite fea_slot by exact Hi. apply limb_range.
  - unfold idx. rewrite nth_overflow by (cbn; lia). lia.
Qed.

End EncodingShape.

(** C6. For a non-negative integer [n] within its declared width (at most
    256 bits), the encoding returns 8 slots; slot [i] is the [i]-th 4-byte
    group, counted from the least significant end, of the 32-byte
    big-endian representation of [n], read as a big-endian unsigned
    integer, which is the [i]-th base-[2^32] digit of [n]; slots at or above
    the declared width are zero; every entry is below [2^32]; and the slots
    determine [n]. *)
Theorem C6_field_element_encoding (w n : Z) :
  0 <= n < 2 ^ w -> w <= 256 ->
  exists fe,
    scalar2fea w n = Returned fe /\
    List.length fe = 8%nat /\
    SetBytes (FillBytes 32 n) = n /\
    (forall i, (i < 8)%nat ->
       idx fe i = SetBytes (firstn 4 (skipn (4 * (7 - i)) (FillBytes 32 n))) /\
       idx fe i = (n / 2 ^ (32 * Z.of_nat i)) mod 2 ^ 32) /\
    (forall i, (i < 8)%nat -> w <= 32 * Z.of_nat i -> idx fe i = 0) /\
    (forall i, 0 <= idx fe i < 2 ^ 32) /\
    idx fe 0 + 2 ^ 32 * (idx fe 1 + 2 ^ 32 * (idx fe 2 + 2 ^ 32 * (idx fe 3
      + 2 ^ 32 * (idx fe 4 + 2 ^ 32 * (idx fe 5 + 2 ^ 32 * (idx fe 6
      + 2 ^ 32 * idx fe 7)))))) = n.
Proof.
  intros Hn Hw.
  assert (Hw0 : 0 <= w).
  { destruct (Z.lt_ge_cases w 0) as [Hneg|]; [|assumption].
    rewrite Z.pow_neg_r in Hn by exact Hneg. lia. }
  assert (Hn256 : 0 <= n < 2 ^ 256).
  { split; [lia|]. apply Z.lt_le_trans with (2 ^ w); [lia|].
    apply Z.pow_le_mono_r; lia. }
  exists (fea n). split; [now apply scalar2fea_ok|].
  split; [reflexivity|].
  split.
  { rewrite SetBytes_FillBytes. change (256 ^ Z.of_nat 32) with (2 ^ 256).
    now apply Z.mod_small. }
  split.
  { intros i Hi. split.
    - rewrite <- slot_is_group by exact Hi. now rewrite groups_of_FillBytes.
    - now apply fea_slot. }
  split.
  { intros i Hi Hwi. rewrite fea_slot by exact Hi.
    apply (limb_high_zero w); lia. }
  split; [apply fea_slot_range|].
  cbn [idx nth fea]. now apply fea_recompose.
Qed.

Lemma C6_field_element_encoding_witness :
  exists fe,
    scalar2fea 160 (2 ^ 159 + 2 ^ 32 + 5) = Returned fe /\
    idx fe 0 = 5 /\ idx fe 1 = 1 /\ idx fe 4 = 2 ^ 31 /\ idx fe 5 = 0 /\
    0 <= idx fe 4 < 2 ^ 32.
Proof.
  destruct (C6_field_element_encoding 160 (2 ^ 159 + 2 ^ 32 + 5))
    as (fe & Hfe & _ & _ & Hslot & Hzero & Hrange & _).
  - lia.
  - lia.
  - exists fe. split; [exact Hfe|].
    split; [now rewrite (proj2 (Hslot 0%nat ltac:(lia)))|].
    split; [now rewrite (proj2 (Hslot 1%nat ltac:(lia)))|].
    split; [now rewrite (proj2 (Hslot 4%nat ltac:(lia)))|].
    split; [apply (Hzero 5%nat); lia|].
    apply Hrange.
Defined.

(** C7. For every fixed address and storage position, when the four
    derivations return keys, the balance, nonce, code and storage keys are
    pairwise different, provided the hash does not collide on the calls the
    four derivations make and its digests are 64-bit words: the four final
    hash calls differ in slot 6 of their message. *)
Theorem C7_leaf_type_separation
  (Hash : arr8 -> arr4 -> arr4 * option error)
  (a : Address) (storagePos : list byte) (kb kn kc ks : list byte)
  (trb trn trc trs : list event) :
  KeyEthAddrBalance Hash a [] = (Returned (kb, None), trb) ->
  KeyEthAddrNonce Hash a [] = (Returned (kn, None), trn) ->
  KeyContractCode Hash a [] = (Returned (kc, None), trc) ->
  KeyContractStorage Hash a storagePos [] = (Returned (ks, None), trs) ->
  collision_free_on (hash_calls (trb ++ trn ++ trc ++ trs)) Hash ->
  uint64_digests Hash ->
  kb <> kn /\ kb <> kc /\ kb <> ks /\ kn <> kc /\ kn <> ks /\ kc <> ks.
Proof.
  intros Hb Hn Hc Hs Hcf Hu.
  rewrite KeyEthAddrBalance_run in Hb. rewrite KeyEthAddrNonce_run in Hn.
  rewrite KeyContractCode_run in Hc.
  apply single_stage_key_inv in Hb as (<- & db & Hb & ->).
  apply single_stage_key_inv in Hn as (<- & dn & Hn & ->).
  apply single_stage_key_inv in Hc as (<- & dc & Hc & ->).
  apply KeyContractStorage_key_inv in Hs as (_ & hk0 & ds & _ & Hs & -> & ->).
  cbn [app hash_calls flat_map] in Hcf.
  repeat split;
    (eapply (keys_differ Hash);
     [exact Hcf | exact Hu | | | eassumption | eassumption |]);
    try (cbn [In]; auto 8; fail);
    left; unfold key1_of; intros E; injection E; discriminate.
Qed.

Lemma C7_leaf_type_separation_witness :
  let kb := h4ToFilledByteSlice [10; 0; 0; 0] in
  let kn := h4ToFilledByteSlice [11; 0; 0; 0] in
  let kc := h4ToFilledByteSlice [12; 0; 0; 0] in
  let ks := h4ToFilledByteSlice [31; 0; 0; 0] in
  fst (KeyEthAddrBalance demoHash zeroAddr []) = Returned (kb, None) /\
  fst (KeyEthAddrNonce demoHash zeroAddr []) = Returned (kn, None) /\
  fst (KeyContractCode demoHash zeroAddr []) = Returned (kc, None) /\
  fst (KeyContractStorage demoHash zeroAddr [x01] []) = Returned (ks, None) /\
  kb <> kn /\ kb <> kc /\ kb <> ks /\ kn <> kc /\ kn <> ks /\ kc <> ks.
Proof.
  cbv zeta.
  assert (Hb : KeyEthAddrBalance demoHash zeroAddr []
               = (Returned (h4ToFilledByteSlice [10; 0; 0; 0], None),
                  snd (KeyEthAddrBalance demoHash zeroAddr [])))
    by (vm_compute; reflexivity).
  assert (Hn : KeyEthAddrNonce demoHash zeroAddr []
               = (Returned (h4ToFilledByteSlice [11; 0; 0; 0], None),
                  snd (KeyEthAddrNonce demoHash zeroAddr [])))
    by (vm_compute; reflexivity).
  assert (Hc : KeyContractCode demoHash zeroAddr []
               = (Returned (h4ToFilledByteSlice [12; 0; 0; 0], None),
                  snd (KeyContractCode demoHash zeroAddr [])))
    by (vm_compute; reflexivity).
  assert (Hs : KeyContractStorage demoHash zeroAddr [x01] []
               = (Returned (h4ToFilledByteSlice [31; 0; 0; 0], None),
                  snd (KeyContractStorage demoHash zeroAddr [x01] [])))
    by (vm_compute; reflexivity).
  split; [now rewrite Hb|]. split; [now rewrite Hn|].
  split; [now rewrite Hc|]. split; [now rewrite Hs|].
  exact (C7_leaf_type_separation demoHash zeroAddr [x01] _ _ _ _ _ _ _ _
           Hb Hn Hc Hs (demoHash_collision_free_on _) demoHash_uint64).
Defined.

Section ShapeFacts.

Variable Hash : arr8 -> arr4 -> arr4 * option error.

(** Every derivation either panics on an over-wide storage position before
    doing anything, or ends with a hash call whose result it returns
    through [finish], every earlier hash call having succeeded. *)
Lemma derive_shape (d : derivation) (tr : list event) :
  (exists x c pre,
     derive Hash d tr = (Returned (finish (Hash x c)), tr ++ pre ++ [EvHash x c]) /\
     (forall x0 c0, In (EvHash x0 c0) pre -> snd (Hash x0 c0) = None))
  \/ (exists a pos,
        d = DStorage a pos /\ 2 ^ 256 <= SetBytes pos /\
        derive Hash d tr = (Panicked EncodingError, tr)).
Proof.
  destruct d as [a|a|a|a pos]; cbn [derive].
  - left. exists (key1_of a leafTypeBalance), defaultCap, [EvStringToh4 HashPoseidonAllZeroes].
    split; [apply KeyEthAddrBalance_run|]. intros x0 c0 [H|[]]. discriminate.
  - left. exists (key1_of a leafTypeNonce), defaultCap, [EvStringToh4 HashPoseidonAllZeroes].
    split; [apply KeyEthAddrNonce_run|]. intros x0 c0 [H|[]]. discriminate.
  - left. exists (key1_of a leafTypeCode), defaultCap, [EvStringToh4 HashPoseidonAllZeroes].
    split; [apply KeyContractCode_run|]. intros x0 c0 [H|[]]. discriminate.
  - destruct (Z.lt_ge_cases (SetBytes pos) (2 ^ 256)) as [Hlt|Hge].
    + left. rewrite KeyContractStorage_run by exact Hlt.
      destruct (Hash (posFE_of pos) (A4 0 0 0 0)) as [hk0 [e|]] eqn:E0.
      * exists (posFE_of pos), (A4 0 0 0 0), []. split; [|intros ? ? []].
        unfold finish. rewrite E0. reflexivity.
      * exists (key1_of a leafTypeStorage), hk0, [EvHash (posFE_of pos) (A4 0 0 0 0)].
        split; [reflexivity|]. intros x0 c0 [H|[]]. injection H as <- <-.
        now rewrite E0.
    + right. exists a, pos. split; [reflexivity|]. split; [exact Hge|].
      now apply KeyContractStorage_overwidth.
Qed.

(** What a run that ends with the call [Hash x c] says about errors. *)
Lemma final_call_propagates (x : arr8) (c : arr4) (pre : list event) :
  (forall x0 c0, In (EvHash x0 c0) pre -> snd (Hash x0 c0) = None) ->
  (forall x' c' dg e,
     In (EvHash x' c') (pre ++ [EvHash x c]) -> Hash x' c' = (dg, Some e) ->
     finish (Hash x c) = ([], Some e) /\
     EvHash x' c' = EvHash x c /\ ~ In (EvHash x' c') pre)
  /\
  (forall k err,
     finish (Hash x c) = (k, err) ->
     (err = None /\ List.length k = 32%nat)
     \/ (k = [] /\ exists dg e, err = Some e /\ Hash x c = (dg, Some e))).
Proof.
  intros Hpre. split.
  - intros x' c' dg e Hin Herr.
    assert (Hnot : ~ In (EvHash x' c') pre).
    { intros Hin'. apply Hpre in Hin'. rewrite Herr in Hin'. discriminate. }
    apply in_app_or in Hin as [Hin|[Hin|[]]]; [contradiction|].
    injection Hin as <- <-. unfold finish. rewrite Herr. auto.
  - intros k err Hf. destruct (finish_cases (Hash x c)) as [[Hs E]|[e [Hs E]]];
      rewrite E in Hf; injection Hf as <- <-.
    + left. split; [reflexivity | apply h4ToFilledByteSlice_length].
    + right. split; [reflexivity|]. exists (fst (Hash x c)), e.
      split; [reflexivity|]. destruct (Hash x c) as [dg o]. cbn [fst snd] in *.
      now subst o.
Qed.

End ShapeFacts.

(** C8. For each of the four derivations: whenever a hash call it makes
    returns an error [e], the derivation returns exactly [(nil, e)], that
    call is made once and is the last thing the derivation does; and every
    pair a derivation returns is either a 32-byte key with no error, or no
    key with the error a hash call of this derivation returned. *)
Theorem C8_oracle_error_propagated
  (Hash : arr8 -> arr4 -> arr4 * option error)
  (d : derivation) (tr : list event)
  (o : outcome (list byte * option error)) (tr' : list event) :
  derive Hash d tr = (o, tr') ->
  exists new,
    tr' = tr ++ new /\
    (forall x c dg e,
       In (EvHash x c) new -> Hash x c = (dg, Some e) ->
       o = Returned ([], Some e) /\
       exists pre, new = pre ++ [EvHash x c] /\ ~ In (EvHash x c) pre) /\
    (forall k err,
       o = Returned (k, err) ->
       (err = None /\ List.length k = 32%nat)
       \/ (k = [] /\ exists x c dg e,
             err = Some e /\ In (EvHash x c) new /\ Hash x c = (dg, Some e))).
Proof.
  intros Hrun.
  destruct (derive_shape Hash d tr) as [(x & c & pre & Hd & Hpre)|(a & pos & _ & _ & Hd)];
    rewrite Hd in Hrun; injection Hrun as <- <-.
  - exists (pre ++ [EvHash x c]). split; [reflexivity|].
    destruct (final_call_propagates Hash x c pre Hpre) as [Hfwd Hbwd].
    split.
    + intros x' c' dg e Hin Herr.
      destruct (Hfwd x' c' dg e Hin Herr) as (Hf & Heq & Hnot).
      split; [now rewrite Hf|]. injection Heq as -> ->.
      exists pre. split; [reflexivity | exact Hnot].
    + intros k err [= Hf].
      destruct (Hbwd k err Hf) as [Hok|(-> & dg & e & -> & Herr)]; [now left|].
      right. split; [reflexivity|]. exists x, c, dg, e.
      split; [reflexivity|]. split; [|exact Herr].
      apply in_or_app. right. now left.
  - exists []. split; [now rewrite app_nil_r|]. split.
    + intros x c dg e [].
    + intros k err [=].
Qed.

Lemma C8_oracle_error_propagated_witness :
  derive failHash (DStorage zeroAddr [x01]) []
  = (Returned ([], Some (HashError "fault")),
     [EvHash (A8 1 0 0 0 0 0 0 0) (A4 0 0 0 0)]).
Proof.
  destruct (C8_oracle_error_propagated failHash (DStorage zeroAddr [x01]) []
              (fst (derive failHash (DStorage zeroAddr [x01]) []))
              (snd (derive failHash (DStorage zeroAddr [x01]) [])))
    as (new & Hnew & Hfwd & _).
  - apply surjective_pairing.
  - cbn [app] in Hnew.
    assert (Htr : snd (derive failHash (DStorage zeroAddr [x01]) [])
                  = [EvHash (A8 1 0 0 0 0 0 0 0) (A4 0 0 0 0)])
      by (vm_compute; reflexivity).
    destruct (Hfwd (A8 1 0 0 0 0 0 0 0) (A4 0 0 0 0) (A4 0 0 0 0) (HashError "fault"))
      as [Ho _].
    + rewrite <- Hnew, Htr. now left.
    + reflexivity.
    + rewrite (surjective_pairing (derive failHash (DStorage zeroAddr [x01]) [])).
      now rewrite Ho, Htr.
Defined.

(** C9. Every key a derivation returns is exactly 32 bytes long: it is the
    concatenation, in order, of the 4 words of the digest the last hash
    call returned, each written as 8 big-endian bytes. *)
Theorem C9_key_is_32_bytes
  (Hash : arr8 -> arr4 -> arr4 * option error)
  (d : derivation) (tr : list event) (k : list byte) (tr' : list event) :
  derive Hash d tr = (Returned (k, None), tr') ->
  List.length k = 32%nat /\
  exists x c dg pre,
    tr' = pre ++ [EvHash x c] /\
    Hash x c = (dg, None) /\
    k = List.concat (map (FillBytes 8) [h0 dg; h1 dg; h2 dg; h3 dg]) /\
    Forall (fun w => List.length (FillBytes 8 w) = 8%nat /\
                     SetBytes (FillBytes 8 w) = w mod 2 ^ 64)
           [h0 dg; h1 dg; h2 dg; h3 dg].
Proof.
  intros Hrun.
  destruct (derive_shape Hash d tr) as [(x & c & pre & Hd & _)|(a & pos & _ & _ & Hd)];
    rewrite Hd in Hrun; [|discriminate].
  injection Hrun as Hf <-.
  apply finish_None_inv in Hf as [Hs ->].
  split; [apply h4ToFilledByteSlice_length|].
  exists x, c, (fst (Hash x c)), (tr ++ pre).
  split; [now rewrite app_assoc|].
  split.
  { destruct (Hash x c) as [dg o]. cbn [fst snd] in *. now subst o. }
  split.
  { unfold h4ToFilledByteSlice, arr4_slice. apply flat_map_concat_map. }
  repeat constructor; try apply FillBytes_length;
    rewrite SetBytes_FillBytes; reflexivity.
Qed.

Lemma C9_key_is_32_bytes_witness :
  List.length (h4ToFilledByteSlice [10; 0; 0; 0]) = 32%nat /\
  derive demoHash (DBalance zeroAddr) []
  = (Returned (h4ToFilledByteSlice [10; 0; 0; 0], None),
     [EvStringToh4 HashPoseidonAllZeroes; EvHash (A8 0 0 0 0 0 0 0 0) defaultCap]).
Proof.
  assert (Hrun : derive demoHash (DBalance zeroAddr) []
                 = (Returned (h4ToFilledByteSlice [10; 0; 0; 0], None),
                    [EvStringToh4 HashPoseidonAllZeroes;
                     EvHash (A8 0 0 0 0 0 0 0 0) defaultCap]))
    by (vm_compute; reflexivity).
  split; [|exact Hrun].
  exact (proj1 (C9_key_is_32_bytes demoHash (DBalance zeroAddr) [] _ _ Hrun)).
Defined.

(** C10. An address is 20 bytes, so its integer is below [2^160] and its
    encoding never fails: [keyEthAddr] and the balance, nonce and code
    derivations always return; a storage derivation returns unless the
    storage position is over-wide; and an error a derivation returns is one
    that a hash call returned or that parsing the capacity constant
    returned. *)
Theorem C10_address_encoding_never_fails
  (Hash : arr8 -> arr4 -> arr4 * option error) (a : Address) :
  0 <= SetBytes (Bytes a) < 2 ^ 160 /\
  (exists addrFE, scalar2fea 160 (SetBytes (Bytes a)) = Returned addrFE) /\
  (forall lt cap tr, exists r, fst (keyEthAddr Hash a lt cap tr) = Returned r) /\
  (forall tr,
     (exists r, fst (KeyEthAddrBalance Hash a tr) = Returned r) /\
     (exists r, fst (KeyEthAddrNonce Hash a tr) = Returned r) /\
     (exists r, fst (KeyContractCode Hash a tr) = Returned r)) /\
  (forall pos tr,
     (exists r, fst (KeyContractStorage Hash a pos tr) = Returned r)
     \/ (2 ^ 256 <= SetBytes pos /\
         fst (KeyContractStorage Hash a pos tr) = Panicked EncodingError)) /\
  (forall d tr k e,
     fst (derive Hash d tr) = Returned (k, Some e) ->
     (exists x c dg, Hash x c = (dg, Some e))
     \/ snd (stringToh4 HashPoseidonAllZeroes) = Some e).
Proof.
  split; [apply Address_range|].
  split; [eexists; apply scalar2fea_ok, Address_range|].
  split; [intros lt cap tr; rewrite keyEthAddr_run; eexists; reflexivity|].
  split.
  { intros tr.
    rewrite KeyEthAddrBalance_run, KeyEthAddrNonce_run, KeyContractCode_run.
    repeat split; eexists; reflexivity. }
  split.
  { intros pos tr.
    destruct (derive_shape Hash (DStorage a pos) tr)
      as [(x & c & pre & Hd & _)|(a' & pos' & Heq & Hge & Hd)]; cbn [derive] in Hd.
    - left. rewrite Hd. eexists. reflexivity.
    - right. injection Heq as <- <-. rewrite Hd. now split. }
  intros d tr k e Hrun. left.
  destruct (derive_shape Hash d tr) as [(x & c & pre & Hd & _)|(a' & pos & _ & _ & Hd)];
    rewrite Hd in Hrun; cbn [fst] in Hrun; [|discriminate].
  injection Hrun as Hf. apply finish_Some_inv in Hf as [Hs _].
  exists x, c, (fst (Hash x c)).
  destruct (Hash x c) as [dg o]. cbn [fst snd] in *. now subst o.
Qed.

Lemma C10_address_encoding_never_fails_witness :
  fst (derive failHash (DNonce zeroAddr) []) = Returned ([], Some (HashError "fault")) /\
  ((exists x c dg, failHash x c = (dg, Some (HashError "fault")))
   \/ snd (stringToh4 HashPoseidonAllZeroes) = Some (HashError "fault")).
Proof.
  assert (Hrun : fst (derive failHash (DNonce zeroAddr) [])
                 = Returned ([], Some (HashError "fault")))
    by (vm_compute; reflexivity).
  split; [exact Hrun|].
  destruct (C10_address_encoding_never_fails failHash zeroAddr)
    as (_ & _ & _ & _ & _ & Hsrc).
  exact (Hsrc (DNonce zeroAddr) [] [] (HashError "fault") Hrun).
Defined.

(** * Further properties of the key derivation *)

Section SeparationFacts.

Variable Hash : arr8 -> arr4 -> arr4 * option error.

Lemma byte_val_inj (b b' : byte) : byte_val b = byte_val b' -> b = b'.
Proof.
  unfold byte_val. intros E. apply N2Z.inj in E.
  pose proof (Byte.of_to_N b) as H. rewrite E, Byte.of_to_N in H. congruence.
Qed.

Lemma SetBytes_inj_same_length (l l' : list byte) :
  List.length l = List.length l' -> SetBytes l = SetBytes l' -> l = l'.
Proof.
  revert l'. induction l as [|b l IH]; intros [|b' l'] Hlen E;
    cbn [List.length] in Hlen; try discriminate; [reflexivity|].
  injection Hlen as Hlen. rewrite !SetBytes_cons, <- Hlen in E.
  pose proof (SetBytes_range l) as R. pose proof (SetBytes_range l') as R'.
  rewrite <- Hlen in R'.
  set (P := 256 ^ Z.of_nat (List.length l)) in *.
  assert (Eb : byte_val b = byte_val b') by nia.
  rewrite Eb in E. f_equal; [now apply byte_val_inj | apply IH; [exact Hlen | lia]].
Qed.

Lemma SetBytes_leading_zeros (k : nat) (p : list byte) :
  SetBytes (repeat x00 k ++ p) = SetBytes p.
Proof.
  induction k as [|k IH]; [reflexivity|].
  cbn [repeat app]. rewrite SetBytes_cons, IH. reflexivity.
Qed.

Lemma uint64_of_leafType_inj (t t' : leafType) :
  uint64_of_leafType t = uint64_of_leafType t' -> t = t'.
Proof. destruct t, t'; cbn; intros E; try reflexivity; discriminate. Qed.

(** The message of the address hash determines the leaf type and the
    address. *)
Lemma key1_of_inj (a b : Address) (t t' : leafType) :
  key1_of a t = key1_of b t' -> t = t' /\ Bytes a = Bytes b.
Proof.
  unfold key1_of. intros E. injection E as E0 E1 E2 E3 E4 Et.
  split; [now apply uint64_of_leafType_inj|].
  apply SetBytes_inj_same_length; [now rewrite !Bytes_length|].
  pose proof (Address_range a) as Ra. pose proof (Address_range b) as Rb.
  apply fea_inj; [lia | lia |]. unfold fea.
  rewrite E0, E1, E2, E3, E4.
  rewrite (limb_high_zero 160 (SetBytes (Bytes a)) 5),
          (limb_high_zero 160 (SetBytes (Bytes a)) 6),
          (limb_high_zero 160 (SetBytes (Bytes a)) 7),
          (limb_high_zero 160 (SetBytes (Bytes b)) 5),
          (limb_high_zero 160 (SetBytes (Bytes b)) 6),
          (limb_high_zero 160 (SetBytes (Bytes b)) 7) by lia.
  reflexivity.
Qed.

(** What a derivation that returned a key has computed. *)
Lemma derive_key_inv (d : derivation) (k : list byte) (tr : list event) :
  derive Hash d [] = (Returned (k, None), tr) ->
  exists c dg,
    Hash (key1_of (derivation_address d) (derivation_leafType d)) c = (dg, None) /\
    k = h4ToFilledByteSlice (arr4_slice dg) /\
    In (key1_of (derivation_address d) (derivation_leafType d), c) (hash_calls tr) /\
    match d with
    | DStorage _ p =>
        SetBytes p < 2 ^ 256 /\
        Hash (posFE_of p) (A4 0 0 0 0) = (c, None) /\
        In (posFE_of p, A4 0 0 0 0) (hash_calls tr)
    | _ => c = defaultCap
    end.
Proof.
  destruct d as [a|a|a|a p];
    cbn [derive derivation_address derivation_leafType]; intros H.
  - rewrite KeyEthAddrBalance_run in H.
    apply single_stage_key_inv in H as (<- & dg & H & ->).
    exists defaultCap, dg. cbn. auto.
  - rewrite KeyEthAddrNonce_run in H.
    apply single_stage_key_inv in H as (<- & dg & H & ->).
    exists defaultCap, dg. cbn. auto.
  - rewrite KeyContractCode_run in H.
    apply single_stage_key_inv in H as (<- & dg & H & ->).
    exists defaultCap, dg. cbn. auto.
  - apply KeyContractStorage_key_inv in H as (Hlt & hk0 & dg & H0 & H1 & -> & ->).
    exists hk0, dg. cbn. auto 8.
Qed.

End SeparationFacts.

(** X1. Leading zero bytes of the storage position never matter: the
    position prefixed by any number of zero bytes gives the same run (same
    result, same hash calls) as the position itself. *)
Theorem storage_position_leading_zeros
  (Hash : arr8 -> arr4 -> arr4 * option error)
  (a : Address) (k : nat) (storagePos : list byte) (tr : list event) :
  KeyContractStorage Hash a (repeat x00 k ++ storagePos) tr
  = KeyContractStorage Hash a storagePos tr.
Proof.
  unfold KeyContractStorage. now rewrite SetBytes_leading_zeros.
Qed.

(** X2. A key determines what it was derived from: when two derivations (of
    any of the four kinds, for any addresses and positions) return the same
    key, they have the same leaf type, the same address bytes and storage
    positions denoting the same integer, provided the hash does not collide
    on the calls the two derivations make and its digests are 64-bit
    words. *)
Theorem key_determines_derivation
  (Hash : arr8 -> arr4 -> arr4 * option error)
  (d d' : derivation) (k : list byte) (tr tr' : list event) :
  derive Hash d [] = (Returned (k, None), tr) ->
  derive Hash d' [] = (Returned (k, None), tr') ->
  collision_free_on (hash_calls (tr ++ tr')) Hash ->
  uint64_digests Hash ->
  derivation_leafType d = derivation_leafType d' /\
  Bytes (derivation_address d) = Bytes (derivation_address d') /\
  derivation_position d = derivation_position d'.
Proof.
  intros H H' Hcf Hu.
  apply derive_key_inv in H as (c & dg & Hk & -> & Hin & Hc).
  apply derive_key_inv in H' as (c' & dg' & Hk' & E & Hin' & Hc').
  apply h4ToFilledByteSlice_inj in E; eauto. subst dg'.
  rewrite hash_calls_app in Hcf.
  destruct (Hcf _ _ _ _ _ (in_or_app _ _ _ (or_introl Hin))
              (in_or_app _ _ _ (or_intror Hin')) Hk Hk') as [Ekey <-].
  apply key1_of_inj in Ekey as [Et Ea].
  split; [exact Et|]. split; [exact Ea|].
  destruct d as [a|a|a|a p], d' as [b|b|b|b q];
    cbn [derivation_leafType] in Et; try discriminate; try reflexivity.
  cbn [derivation_position].
  destruct Hc as (Hp & H0 & Hin0), Hc' as (Hq & H0' & Hin0').
  destruct (Hcf _ _ _ _ _ (in_or_app _ _ _ (or_introl Hin0))
              (in_or_app _ _ _ (or_intror Hin0')) H0 H0') as [Epos _].
  f_equal. apply fea_inj.
  - split; [apply SetBytes_range | exact Hp].
  - split; [apply SetBytes_range | exact Hq].
  - unfold posFE_of in Epos. unfold fea.
    now injection Epos as -> -> -> -> -> -> -> ->.
Qed.

Lemma key_determines_derivation_witness :
  derive demoHash (DStorage zeroAddr [x01]) []
    = derive demoHash (DStorage zeroAddr [x00; x00; x01]) [] /\
  derivation_position (DStorage zeroAddr [x01])
    = derivation_position (DStorage zeroAddr [x00; x00; x01]).
Proof.
  assert (H1 : derive demoHash (DStorage zeroAddr [x01]) []
               = (Returned (h4ToFilledByteSlice [31; 0; 0; 0], None),
                  snd (derive demoHash (DStorage zeroAddr [x01]) [])))
    by (vm_compute; reflexivity).
  assert (H2 : derive demoHash (DStorage zeroAddr [x00; x00; x01]) []
               = (Returned (h4ToFilledByteSlice [31; 0; 0; 0], None),
                  snd (derive demoHash (DStorage zeroAddr [x00; x00; x01]) [])))
    by (vm_compute; reflexivity).
  split; [reflexivity|].
  exact (proj2 (proj2 (key_determines_derivation demoHash _ _ _ _ _ H1 H2
                         (demoHash_collision_free_on _) demoHash_uint64))).
Defined.

Section MessageFacts.

Variable Hash : arr8 -> arr4 -> arr4 * option error.

Lemma key1_of_field_safe (a : Address) (t : leafType) : field_safe (key1_of a t).
Proof.
  unfold field_safe, key1_of. cbn [e0 e1 e2 e3 e4 e5 e6 e7].
  repeat constructor; try apply limb_range; try lia;
    destruct t; cbn; lia.
Qed.

Lemma posFE_of_field_safe (p : list byte) : field_safe (posFE_of p).
Proof.
  unfold field_safe, posFE_of. cbn [e0 e1 e2 e3 e4 e5 e6 e7].
  repeat constructor; apply limb_range.
Qed.

End MessageFacts.

(** X3. Whatever the hash answers, every hash call a derivation makes has a
    message of 8 words below [2^32], and a capacity that is the default
    capacity, the all-zero vector, or a digest the hash itself returned:
    the derivations never hand the hash a word of their own making that is
    out of range. *)
Theorem hash_inputs_in_range
  (Hash : arr8 -> arr4 -> arr4 * option error) (d : derivation) :
  Forall (fun xc =>
            field_safe (fst xc) /\
            (snd xc = defaultCap \/ snd xc = A4 0 0 0 0
             \/ exists x c, Hash x c = (snd xc, None)))
         (hash_calls (snd (derive Hash d []))).
Proof.
  destruct d as [a|a|a|a p]; cbn [derive].
  - rewrite KeyEthAddrBalance_run. cbn [snd app hash_calls flat_map].
    constructor; [|constructor]. split; [apply key1_of_field_safe | now left].
  - rewrite KeyEthAddrNonce_run. cbn [snd app hash_calls flat_map].
    constructor; [|constructor]. split; [apply key1_of_field_safe | now left].
  - rewrite KeyContractCode_run. cbn [snd app hash_calls flat_map].
    constructor; [|constructor]. split; [apply key1_of_field_safe | now left].
  - destruct (Z.lt_ge_cases (SetBytes p) (2 ^ 256)) as [Hlt|Hge].
    + rewrite KeyContractStorage_run by exact Hlt.
      destruct (Hash (posFE_of p) (A4 0 0 0 0)) as [hk0 [e|]] eqn:E0;
        cbn [snd app hash_calls flat_map].
      * constructor; [|constructor].
        split; [apply posFE_of_field_safe | right; now left].
      * constructor; [|constructor; [|constructor]].
        -- split; [apply posFE_of_field_safe | right; now left].
        -- split; [apply key1_of_field_safe | right; right; eauto].
    + rewrite KeyContractStorage_overwidth by exact Hge. constructor.
Qed.

(** * Properties of the operations manager *)

Section RootFacts.

Import Operations.

Lemma to_int_printable (n : Z) :
  Z.to_int n <> Decimal.Pos Decimal.Nil /\ Z.to_int n <> Decimal.Neg Decimal.Nil.
Proof.
  destruct n as [|p|p]; cbn [Z.to_int]; split; try discriminate;
    intros [= E]; now apply (DecimalPos.Unsigned.to_uint_nonnil p).
Qed.

(** The decimal text determines the integer. *)
Lemma Int_String_inj (n n' : Z) : Int_String n = Int_String n' -> n = n'.
Proof.
  unfold Int_String. intros E.
  apply DecimalZ.to_int_inj.
  destruct (to_int_printable n) as [Hp Hn], (to_int_printable n') as [Hp' Hn'].
  pose proof (DecimalString.NilZero.isi _ Hp Hn) as H.
  rewrite E, (DecimalString.NilZero.isi _ Hp' Hn') in H. congruence.
Qed.

Lemma checkRoot_None (root : list byte) (expectedRoot : string) :
  checkRoot root expectedRoot = None <-> expectedRoot = Int_String (SetBytes root).
Proof.
  unfold checkRoot.
  destruct (String.eqb expectedRoot (Int_String (SetBytes root))) eqn:E; cbn [negb].
  - apply String.eqb_eq in E. split; auto.
  - apply String.eqb_neq in E. split; [discriminate | contradiction].
Qed.

Lemma digits_of_uint (d : Decimal.uint) :
  forallb isDigit (list_ascii_of_string (DecimalString.NilEmpty.string_of_uint d)) = true.
Proof.
  induction d; cbn [DecimalString.NilEmpty.string_of_uint list_ascii_of_string forallb];
    [reflexivity | rewrite IHd; reflexivity ..].
Qed.

Lemma to_uint_head (p : positive) (d : Decimal.uint) :
  Pos.to_uint p <> Decimal.D0 d.
Proof.
  assert (E : Pos.to_uint p = Decimal.unorm (Pos.to_uint p)).
  { pose proof (DecimalPos.Unsigned.to_of (Pos.to_uint p)) as H.
    rewrite DecimalPos.Unsigned.of_to in H. exact H. }
  assert (Hnz : Decimal.nzhead (Pos.to_uint p) <> Decimal.Nil).
  { intros Hnil. apply DecimalFacts.unorm_0 in Hnil.
    apply (DecimalPos.Unsigned.to_uint_nonzero p). congruence. }
  rewrite E, (DecimalFacts.unorm_nzhead _ Hnz).
  apply DecimalFacts.nzhead_nonzero.
Qed.

End RootFacts.

(** X4. An expected-root text identifies the root: two roots that
    [checkRoot] accepts for the same text denote the same integer, and are
    the same bytes when they have the same length. *)
Theorem checkRoot_accepts_one_root
  (root root' : list byte) (expectedRoot : string) :
  Operations.checkRoot root expectedRoot = None ->
  Operations.checkRoot root' expectedRoot = None ->
  SetBytes root = SetBytes root' /\
  (List.length root = List.length root' -> root = root').
Proof.
  intros H H'. apply checkRoot_None in H, H'.
  assert (E : SetBytes root = SetBytes root')
    by (apply Int_String_inj; congruence).
  split; [exact E|]. intros Hlen. now apply SetBytes_inj_same_length.
Qed.

Lemma checkRoot_accepts_one_root_witness :
  SetBytes [x00; x01; x00] = SetBytes [x01; x00].
Proof.
  refine (proj1 (checkRoot_accepts_one_root [x00; x01; x00] [x01; x00] "256" _ _));
    vm_compute; reflexivity.
Defined.

(** X5. [checkRoot] accepts only canonical decimal text: an accepted
    expected root is non-empty, consists of decimal digits only, and has no
    leading zero unless it is ["0"]; so hexadecimal text, signed text or
    zero-padded text is always rejected. *)
Theorem checkRoot_accepts_canonical_decimal
  (root : list byte) (expectedRoot : string) :
  Operations.checkRoot root expectedRoot = None ->
  expectedRoot <> EmptyString /\
  forallb Operations.isDigit (list_ascii_of_string expectedRoot) = true /\
  (expectedRoot = "0"%string
   \/ exists c s, expectedRoot = String c s /\ c <> "0"%char).
Proof.
  intros H. apply checkRoot_None in H. subst expectedRoot.
  unfold Operations.Int_String.
  pose proof (SetBytes_range root) as [Hge _].
  destruct (SetBytes root) as [|p|p]; [| |lia].
  - cbn. split; [discriminate|]. split; [reflexivity | now left].
  - cbn [Z.to_int DecimalString.NilZero.string_of_int].
    pose proof (DecimalPos.Unsigned.to_uint_nonnil p) as Hnil.
    pose proof (to_uint_head p) as Hhead.
    pose proof (digits_of_uint (Pos.to_uint p)) as Hdig.
    destruct (Pos.to_uint p) as [|d|d|d|d|d|d|d|d|d|d] eqn:E;
      [contradiction | exfalso; now apply (Hhead d) | ..];
      cbn [DecimalString.NilZero.string_of_uint DecimalString.NilEmpty.string_of_uint] in *;
      (split; [discriminate|]); (split; [exact Hdig|]);
      right; eexists; eexists; (split; [reflexivity | discriminate]).
Qed.

Lemma checkRoot_accepts_canonical_decimal_witness :
  forallb Operations.isDigit (list_ascii_of_string "256") = true.
Proof.
  refine (proj1 (proj2 (checkRoot_accepts_canonical_decimal [x01; x00] "256" _))).
  vm_compute. reflexivity.
Defined.

(** X6. When [CheckVirtualRoot] and then [CheckConsolidatedRoot] both pass
    for the same expected text, the state was asked for the virtual root
    and then for the consolidated root, both without error, and the two
    roots denote the same integer. *)
Theorem both_root_checks_agree
  (w : Operations.World) (expectedRoot : string)
  (tr tr1 tr2 : list Operations.event) :
  Operations.CheckVirtualRoot w expectedRoot tr = (None, tr1) ->
  Operations.CheckConsolidatedRoot w expectedRoot tr1 = (None, tr2) ->
  tr2 = tr ++ [Operations.EvGetStateRoot true; Operations.EvGetStateRoot false] /\
  snd (Operations.GetStateRoot w tr true) = None /\
  snd (Operations.GetStateRoot w tr1 false) = None /\
  SetBytes (fst (Operations.GetStateRoot w tr true))
  = SetBytes (fst (Operations.GetStateRoot w tr1 false)).
Proof.
  unfold Operations.CheckVirtualRoot, Operations.CheckConsolidatedRoot,
    Operations.bind, Operations.st_GetStateRoot, Operations.ret.
  destruct (Operations.GetStateRoot w tr true) as [r [e|]]; [discriminate|].
  intros [= Hv <-].
  destruct (Operations.GetStateRoot w (tr ++ [Operations.EvGetStateRoot true]) false)
    as [r' [e'|]]; [discriminate|].
  intros [= Hc <-].
  split; [now rewrite <- app_assoc|]. split; [reflexivity|]. split; [reflexivity|].
  exact (proj1 (conj (Int_String_inj _ _
                       (eq_trans (eq_sym (proj1 (checkRoot_None r expectedRoot) Hv))
                                 (proj1 (checkRoot_None r' expectedRoot) Hc)))
                     I)).
Qed.

Lemma both_root_checks_agree_witness :
  Operations.CheckVirtualRoot Operations.quietWorld "256" [] 
    = (None, [Operations.EvGetStateRoot true]) /\
  SetBytes (fst (Operations.GetStateRoot Operations.quietWorld [] true))
  = SetBytes (fst (Operations.GetStateRoot Operations.quietWorld
                     [Operations.EvGetStateRoot true] false)).
Proof.
  assert (H1 : Operations.CheckVirtualRoot Operations.quietWorld "256" []
               = (None, [Operations.EvGetStateRoot true]))
    by (vm_compute; reflexivity).
  split; [exact H1|].
  refine (proj2 (proj2 (proj2 (both_root_checks_agree Operations.quietWorld "256"
                                 [] _ _ H1 _)))).
  vm_compute. reflexivity.
Defined.


Section StartFacts.

Import Operations.

Variable w : World.


End StartFacts.



Section ApplyTxsFacts.

Import Operations.

Variable w : World.

Lemma sendTxs_filter (txs : list Tx) (tr : list event) :
  sendTxs w (filter sendable txs) tr = sendTxs w txs tr.
Proof.
  revert tr. induction txs as [|tx txs IH]; intro tr; [reflexivity|].
  cbn [filter]. destruct (sendable tx) eqn:Es.
  - cbn [sendTxs]. unfold sendable in Es. rewrite Es.
    destruct (DecodeHex w (RawTx tx)) as [b [e|]]; [reflexivity|].
    destruct (UnmarshalBinary w b) as [e|]; [reflexivity|].
    unfold bind, log_Infof, l2Client_SendTransaction.
    destruct (SendTransaction w _ b) as [e|]; [reflexivity|]. apply IH.
  - cbn [sendTxs]. unfold sendable in Es. rewrite Es. apply IH.
Qed.

(** Once a transaction has failed, the rest of the list is not looked at. *)
Lemma sendTxs_app_fail (txs txs' : list Tx) (tr tr' : list event) (e : error) :
  sendTxs w txs tr = (Some e, tr') -> sendTxs w (txs ++ txs') tr = (Some e, tr').
Proof.
  revert tr. induction txs as [|tx txs IH]; intro tr; [discriminate|].
  cbn [app sendTxs].
  destruct (negb (RawTx tx =? "")%string && (Overwrite_S tx =? "")%string);
    [|apply IH].
  destruct (DecodeHex w (RawTx tx)) as [b [e0|]]; [trivial|].
  destruct (UnmarshalBinary w b) as [e0|]; [trivial|].
  unfold bind, log_Infof, l2Client_SendTransaction.
  destruct (SendTransaction w _ b) as [e0|]; [trivial|]. apply IH.
Qed.

(** The run of [ApplyTxs] once dialling and reading the batch number have
    succeeded. *)
Lemma ApplyTxs_after_setup (txs : list Tx) (initialRoot finalRoot : string)
  (tr : list event) (currentBatchNumber : Z) :
  Dial w tr l2NetworkURL = None ->
  GetLastBatchNumberSeenOnEthereum w (tr ++ [EvDial l2NetworkURL])
    = (currentBatchNumber, None) ->
  ApplyTxs w txs initialRoot finalRoot tr
  = let (err, tr3) :=
      sendTxs w txs (tr ++ [EvDial l2NetworkURL; EvGetLastBatchNumberSeenOnEthereum]) in
    match err with
    | Some e => (Some e, tr3)
    | None =>
        let (err, tr4) :=
          Poll w (defaultInterval w) (defaultDeadline w)
            (bind (st_GetLastBatchNumberConsolidatedOnEthereum w)
               (fun r =>
                  match r with
                  | (latestBatchNumber, Some e) => ret (false, Some e)
                  | (latestBatchNumber, None) =>
                      ret (latestBatchNumber >? currentBatchNumber, None)
                  end)) tr3 in
        if negb (initialRoot =? "")%string && negb (finalRoot =? "")%string
           && negb (initialRoot =? finalRoot)%string
           && match err with Some _ => true | None => false end
        then (err, tr4) else (None, tr4)
    end.
Proof.
  intros Hd Hg. unfold ApplyTxs.
  unfold bind at 1, ethclient_Dial. rewrite Hd.
  unfold bind at 1, st_GetLastBatchNumberSeenOnEthereum. rewrite Hg.
  rewrite <- app_assoc. cbn [app].
  unfold bind at 1.
  destruct (sendTxs w txs _) as [[e|] tr3]; [reflexivity|].
  unfold bind at 1.
  destruct (Poll w _ _ _ tr3) as [err tr4].
  destruct (negb (initialRoot =? "")%string && negb (finalRoot =? "")%string
            && negb (initialRoot =? finalRoot)%string
            && match err with Some _ => true | None => false end); reflexivity.
Qed.

End ApplyTxsFacts.

(** X9. [ApplyTxs] ignores every transaction whose raw payload is empty or
    whose [Overwrite.S] is set: dropping those from the list changes
    neither the result nor the calls made. *)
Theorem ApplyTxs_ignores_unsendable
  (w : Operations.World) (txs : list Operations.Tx)
  (initialRoot finalRoot : string) (tr : list Operations.event) :
  Operations.ApplyTxs w (filter Operations.sendable txs) initialRoot finalRoot tr
  = Operations.ApplyTxs w txs initialRoot finalRoot tr.
Proof.
  unfold Operations.ApplyTxs, Operations.bind, Operations.ethclient_Dial,
    Operations.st_GetLastBatchNumberSeenOnEthereum.
  destruct (Operations.Dial w tr Operations.l2NetworkURL) as [e|]; [reflexivity|].
  destruct (Operations.GetLastBatchNumberSeenOnEthereum w _) as [n [e|]];
    [reflexivity|].
  now rewrite sendTxs_filter.
Qed.

(** X10. Once dialling the node and reading the last batch number have
    succeeded and every transaction was sent, the error of the wait is
    dropped unless both roots are given and differ: with an empty or
    unchanged root [ApplyTxs] returns nil whatever the wait returned, and
    with two different non-empty roots it returns exactly what the wait
    returned. *)
Theorem ApplyTxs_wait_error
  (w : Operations.World) (txs : list Operations.Tx)
  (initialRoot finalRoot : string) (tr tr3 : list Operations.event)
  (currentBatchNumber : Z) :
  Operations.Dial w tr Operations.l2NetworkURL = None ->
  Operations.GetLastBatchNumberSeenOnEthereum w
    (tr ++ [Operations.EvDial Operations.l2NetworkURL]) = (currentBatchNumber, None) ->
  Operations.sendTxs w txs
    (tr ++ [Operations.EvDial Operations.l2NetworkURL;
            Operations.EvGetLastBatchNumberSeenOnEthereum]) = (None, tr3) ->
  let wait :=
    Operations.Poll w (Operations.defaultInterval w) (Operations.defaultDeadline w)
      (Operations.bind (Operations.st_GetLastBatchNumberConsolidatedOnEthereum w)
         (fun r =>
            match r with
            | (latestBatchNumber, Some e) => Operations.ret (false, Some e)
            | (latestBatchNumber, None) =>
                Operations.ret (latestBatchNumber >? currentBatchNumber, None)
            end)) tr3 in
  snd (Operations.ApplyTxs w txs initialRoot finalRoot tr) = snd wait /\
  (initialRoot = EmptyString \/ finalRoot = EmptyString \/ initialRoot = finalRoot ->
   fst (Operations.ApplyTxs w txs initialRoot finalRoot tr) = None) /\
  (initialRoot <> EmptyString -> finalRoot <> EmptyString ->
   initialRoot <> finalRoot ->
   fst (Operations.ApplyTxs w txs initialRoot finalRoot tr) = fst wait).
Proof.
  intros Hd Hg Hs. cbv zeta.
  rewrite (ApplyTxs_after_setup w txs initialRoot finalRoot tr currentBatchNumber Hd Hg).
  rewrite Hs.
  destruct (Operations.Poll w _ _ _ tr3) as [err tr4]. cbn [fst snd].
  split; [|split].
  - destruct (_ && _); reflexivity.
  - intros Hroots.
    assert (E : (negb (initialRoot =? "")%string && negb (finalRoot =? "")%string
                 && negb (initialRoot =? finalRoot)%string) = false).
    { destruct Hroots as [ -> | [ -> | -> ] ].
      - reflexivity.
      - rewrite String.eqb_refl. cbn. now rewrite andb_false_r.
      - rewrite String.eqb_refl. cbn. now rewrite andb_false_r. }
    rewrite E. reflexivity.
  - intros H1 H2 H3.
    apply String.eqb_neq in H1, H2, H3. rewrite H1, H2, H3. cbn [negb andb].
    destruct err; reflexivity.
Qed.

Lemma ApplyTxs_wait_error_witness :
  fst (Operations.Poll Operations.quietWorld 1 10
         (fun tr => ((true, None), tr)) [])
    = Some (Operations.ExternalError "deadline exceeded") /\
  fst (Operations.ApplyTxs Operations.quietWorld
         [Operations.mkTx 1 "2a" "0x01" ""] "77" "77" []) = None.
Proof.
  split; [reflexivity|].
  refine (proj1 (proj2 (ApplyTxs_wait_error Operations.quietWorld
                          [Operations.mkTx 1 "2a" "0x01" ""] "77" "77" []
                          _ 5 _ _ _)) _).
  - reflexivity.
  - reflexivity.
  - vm_compute. reflexivity.
  - right. right. reflexivity.
Defined.

(** X11. [ApplyTxs] stops at the first transaction that fails to decode, to
    unmarshal or to be sent: it returns that error at once, so the
    transactions after it are not sent and the wait for consolidation is
    skipped. *)
Theorem ApplyTxs_stops_at_first_failure
  (w : Operations.World) (txs txs' : list Operations.Tx)
  (initialRoot finalRoot : string) (tr tr3 : list Operations.event)
  (currentBatchNumber : Z) (e : Operations.error) :
  Operations.Dial w tr Operations.l2NetworkURL = None ->
  Operations.GetLastBatchNumberSeenOnEthereum w
    (tr ++ [Operations.EvDial Operations.l2NetworkURL]) = (currentBatchNumber, None) ->
  Operations.sendTxs w txs
    (tr ++ [Operations.EvDial Operations.l2NetworkURL;
            Operations.EvGetLastBatchNumberSeenOnEthereum]) = (Some e, tr3) ->
  Operations.ApplyTxs w (txs ++ txs') initialRoot finalRoot tr = (Some e, tr3).
Proof.
  intros Hd Hg Hs.
  rewrite (ApplyTxs_after_setup w _ initialRoot finalRoot tr currentBatchNumber Hd Hg).
  now rewrite (sendTxs_app_fail w txs txs' _ _ _ Hs).
Qed.

Lemma ApplyTxs_stops_at_first_failure_witness :
  Operations.ApplyTxs Operations.brokenWorld
    ([Operations.mkTx 1 "zz" "0x01" ""] ++ [Operations.mkTx 2 "2a" "0x01" ""])
    "1" "2" []
  = (Some (Operations.ExternalError "invalid hex"),
     [Operations.EvDial Operations.l2NetworkURL;
      Operations.EvGetLastBatchNumberSeenOnEthereum]).
Proof.
  apply (ApplyTxs_stops_at_first_failure Operations.brokenWorld _ _ "1" "2" [] _ 5);
    reflexivity.
Defined.

(** * Properties of the JSON-RPC client *)

Section StringFacts.

Lemma length_append (s t : string) :
  String.length (String.append s t) = (String.length s + String.length t)%nat.
Proof. induction s as [|c s IH]; cbn; [reflexivity | now rewrite IH]. Qed.

Lemma substring_all (s : string) : substring 0 (String.length s) s = s.
Proof. induction s as [|c s IH]; cbn; [reflexivity | now rewrite IH]. Qed.

Lemma substring_append_prefix (s t : string) :
  substring 0 (String.length s) (String.append s t) = s.
Proof.
  induction s as [|c s IH]; cbn; [now destruct t | now rewrite IH].
Qed.

Lemma substring_append_suffix (s t : string) :
  substring (String.length s) (String.length t) (String.append s t) = t.
Proof.
  induction s as [|c s IH]; cbn; [apply substring_all | exact IH].
Qed.

Lemma TrimSuffix_append (s suffix : string) :
  NodeKit.TrimSuffix (String.append s suffix) suffix = s.
Proof.
  unfold NodeKit.TrimSuffix, NodeKit.HasSuffix. rewrite length_append.
  replace (String.length s + String.length suffix - String.length suffix)%nat
    with (String.length s) by lia.
  rewrite substring_append_suffix, String.eqb_refl, substring_append_prefix.
  replace (String.length suffix <=? String.length s + String.length suffix)%nat
    with true by (symmetry; apply Nat.leb_le; lia).
  reflexivity.
Qed.

End StringFacts.

(** X12. [NewJSONRPCClient] removes exactly one trailing slash before
    appending [/rpc]: for every [uri], the client for [uri ++ "/"] asks for
    a requester at [uri ++ "/rpc"] under the name ["proxy"]; so a URI
    without a trailing slash gives the same client with or without one,
    while of two trailing slashes one stays. *)
Theorem NewJSONRPCClient_trailing_slash
  (EndpointRequester : Type) (NewRequester : string -> string -> EndpointRequester)
  (uri : string) :
  NodeKit.NewJSONRPCClient EndpointRequester NewRequester (String.append uri "/")
    = NodeKit.mkJSONRPCClient EndpointRequester
        (NewRequester (String.append uri "/rpc") "proxy"%string) /\
  (NodeKit.HasSuffix uri "/" = false ->
   NodeKit.NewJSONRPCClient EndpointRequester NewRequester (String.append uri "/")
   = NodeKit.NewJSONRPCClient EndpointRequester NewRequester uri) /\
  NodeKit.NewJSONRPCClient EndpointRequester NewRequester (String.append uri "//")
    = NodeKit.mkJSONRPCClient EndpointRequester
        (NewRequester (String.append uri "//rpc") "proxy"%string).
Proof.
  assert (H1 : forall u,
             NodeKit.NewJSONRPCClient EndpointRequester NewRequester (String.append u "/")
             = NodeKit.mkJSONRPCClient EndpointRequester
                 (NewRequester (String.append u "/rpc") "proxy"%string)).
  { intros u. unfold NodeKit.NewJSONRPCClient. now rewrite TrimSuffix_append. }
  assert (Hassoc : forall a b c : string,
             String.append (String.append a b) c = String.append a (String.append b c)).
  { intros a b c. induction a as [|x a IH]; cbn; [reflexivity | now rewrite IH]. }
  split; [apply H1|]. split.
  - intros Hno. rewrite H1. unfold NodeKit.NewJSONRPCClient, NodeKit.TrimSuffix.
    now rewrite Hno.
  - replace (String.append uri "//") with (String.append (String.append uri "/") "/")
      by (rewrite Hassoc; reflexivity).
    rewrite H1, Hassoc. reflexivity.
Qed.

Lemma NewJSONRPCClient_trailing_slash_witness :
  NodeKit.NewJSONRPCClient string (fun uri name => String.append name (String.append "@" uri))
    "http://localhost:9650/"
  = NodeKit.NewJSONRPCClient string (fun uri name => String.append name (String.append "@" uri))
      "http://localhost:9650".
Proof.
  refine (proj1 (proj2 (NewJSONRPCClient_trailing_slash string _
                          "http://localhost:9650")) _).
  vm_compute. reflexivity.
Defined.
